(** * starspot: rotation-period estimators

    A shallow embedding of [starspot/starspot.py] (class [RotationModel]:
    [ls_rotation], [acf_rotation], [pdm_rotation]) together with the
    phase-dispersion and peak utilities it imports.

    Conventions.
    - numpy floats are modelled by exact rationals [Q]; a float that may be
      non-finite is a [float] ([Fin q], [NaN], [PInf], [NInf]).
    - numpy arrays are lists; an attribute that has not been assigned yet is
      [None].
    - an operation either returns ([Ok]) or raises ([Raise]); attribute
      writes made before an exception stay in the object, as in Python.
    - routines of other libraries (astropy's Lomb-Scargle power, scipy's
      least-squares fit, numpy's percentile) and the autocorrelation routine
      are section variables.
    - [build_gp] uses [exp], [sqrt] and [pi]; there floats are modelled by
      real numbers. *)

From Stdlib Require Import QArith Qround Qabs ZArith List Lia Bool Arith.
From Stdlib Require Reals Lra String.
Import ListNotations.

Open Scope Q_scope.

(** * Part I: the embedding *)

(** ** Numeric prelude *)

Module Num.

Definition Qltb (a b : Q) : bool := negb (Qle_bool b a).

(** A numpy float: finite, or one of the three non-finite values. *)
Inductive float : Type :=
| Fin (q : Q)
| NaN
| PInf
| NInf.

(** [np.isfinite] *)
Definition isfinite (x : float) : bool :=
  match x with Fin _ => true | _ => false end.

(** Float subtraction, IEEE rules for the non-finite values. *)
Definition fsub (x y : float) : float :=
  match x, y with
  | Fin p, Fin q => Fin (p - q)
  | NaN, _ | _, NaN => NaN
  | PInf, PInf | NInf, NInf => NaN
  | PInf, _ | _, NInf => PInf
  | NInf, _ | _, PInf => NInf
  end.

(** [1./q] on a numpy array element: division by zero gives [inf]. *)
Definition frecip (q : Q) : float :=
  if Qeq_bool q 0 then PInf else Fin (/ q).

(** The finite values of an array, when all of them are finite. *)
Fixpoint finite_values (xs : list float) : option (list Q) :=
  match xs with
  | [] => Some []
  | Fin q :: r =>
      match finite_values r with Some l => Some (q :: l) | None => None end
  | _ :: _ => None
  end.

Fixpoint Qsum (l : list Q) : Q :=
  match l with
  | [] => 0
  | x :: r => x + Qsum r
  end.

Definition Qnat (n : nat) : Q := inject_Z (Z.of_nat n).

(** [np.linspace(lo, hi, n)] *)
Definition linspace (lo hi : Q) (n : nat) : list Q :=
  map (fun i => lo + Qnat i * ((hi - lo) / Qnat (n - 1))) (seq 0 n).
Arguments linspace : simpl never.

(** Index of the first least element (0 on the empty list). *)
Fixpoint argminQ (l : list Q) : nat :=
  match l with
  | [] => 0%nat
  | x :: r =>
      match r with
      | [] => 0%nat
      | _ :: _ =>
          let j := argminQ r in
          if Qle_bool x (nth j r 0) then 0%nat else S j
      end
  end.

(** Index of the first undefined entry. *)
Fixpoint first_undefined (l : list (option Q)) : option nat :=
  match l with
  | [] => None
  | None :: _ => Some 0%nat
  | Some _ :: r => option_map S (first_undefined r)
  end.

(** The defined entries, read with 0 at undefined ones. *)
Definition values (l : list (option Q)) : list Q :=
  map (fun o => match o with Some q => q | None => 0 end) l.

End Num.
Import Num.

(** ** Exceptions *)

Inductive exn : Type :=
| AssertionError
| IndexError
| ValueError
| ZeroDivisionError
| InvalidInput
| InvalidPeriod.

Inductive result (A : Type) : Type :=
| Ok (a : A)
| Raise (e : exn).
Arguments Ok {A} a.
Arguments Raise {A} e.

Definition bind {A B} (r : result A) (k : A -> result B) : result B :=
  match r with
  | Ok a => k a
  | Raise e => Raise e
  end.

(** A loop that evaluates [f] at each element in order and stops at the
    first exception. *)
Fixpoint mapM {A B} (f : A -> result B) (l : list A) : result (list B) :=
  match l with
  | [] => Ok []
  | x :: r =>
      bind (f x) (fun y => bind (mapM f r) (fun ys => Ok (y :: ys)))
  end.

(** [np.argmin] on a float array whose undefined entries are NaN: the empty
    array is rejected, the first NaN wins, otherwise the first minimum. *)
Definition argmin (l : list (option Q)) : result nat :=
  match l with
  | [] => Raise ValueError
  | _ :: _ =>
      match first_undefined l with
      | Some i => Ok i
      | None => Ok (argminQ (values l))
      end
  end.

(** ** Peak extraction *)

Module Peaks.

(** The condition of the comprehension in [ls_rotation]:
    [power[i-1] < power[i] and power[i+1] < power[i]]. *)
Definition is_peak (y : list Q) (i : nat) : bool :=
  match nth_error y (i - 1), nth_error y i, nth_error y (i + 1) with
  | Some l, Some m, Some r => Qltb l m && Qltb r m
  | _, _, _ => false
  end.

(** [[i for i in range(1, len(y)-1) if y[i-1] < y[i] and y[i+1] < y[i]]] *)
Definition peaks (y : list Q) : list nat :=
  filter (is_peak y) (seq 1 (length y - 2)).

(** Value of the curve at an index inside it. *)
Definition at_ (y : list Q) (i : nat) : Q := nth i y 0.

Definition strict_local_max (y : list Q) (i : nat) : Prop :=
  (1 <= i <= length y - 2)%nat /\
  at_ y (i - 1) < at_ y i /\ at_ y (i + 1) < at_ y i.

Definition strictly_increasing (y : list Q) : Prop :=
  forall i, (S i < length y)%nat -> at_ y i < at_ y (S i).

Definition strictly_decreasing (y : list Q) : Prop :=
  forall i, (S i < length y)%nat -> at_ y (S i) < at_ y i.

(** Strictly increasing up to index [k], strictly decreasing after it. *)
Definition rises_then_falls (y : list Q) (k : nat) : Prop :=
  (1 <= k <= length y - 2)%nat /\
  (forall i, (i < k)%nat -> at_ y i < at_ y (S i)) /\
  (forall i, (k <= i)%nat -> (S i < length y)%nat -> at_ y (S i) < at_ y i).


(** The ranking criterion of [get_peak_statistics]. *)
Inductive sort_key : Type :=
| Height
| Position.

(** [p] ranks before [q] by height: larger [y] first, equal [y] by
    smaller [x]. *)
Definition ranks_before (p q : Q * Q) : bool :=
  Qltb (snd q) (snd p) ||
  (Qeq_bool (snd p) (snd q) && Qle_bool (fst p) (fst q)).


Fixpoint insert_peak (p : Q * Q) (l : list (Q * Q)) : list (Q * Q) :=
  match l with
  | [] => [p]
  | q :: r => if ranks_before p q then p :: q :: r else q :: insert_peak p r
  end.

Fixpoint sort_by_height (l : list (Q * Q)) : list (Q * Q) :=
  match l with
  | [] => []
  | p :: r => insert_peak p (sort_by_height r)
  end.

(** The (x, y) pairs at the strict local maxima, in x order. *)
Definition peak_points (x y : list Q) : list (Q * Q) :=
  map (fun i => (at_ x i, at_ y i)) (peaks y).

(** Modelled from the spec: [get_peak_statistics] of
    [starspot/rotation_tools.py], which is not among the sources.  Section
    4.1: the strict local maxima of the curve, and under the "height"
    criterion the pairs sorted descending by y, ties by ascending x; no peak
    gives the empty peak set.  Returns [(xpeaks, ypeaks)]. *)
Definition get_peak_statistics (x y : list Q) (sort_by : sort_key)
  : list Q * list Q :=
  let pts := peak_points x y in
  let ranked := match sort_by with
                | Height => sort_by_height pts
                | Position => pts
                end in
  (map fst ranked, map snd ranked).

End Peaks.

(** ** Phase dispersion minimisation *)

Module PDM.

(** [x mod 1] *)
Definition frac (q : Q) : Q := q - inject_Z (Qfloor q).

(** [((t - t[0]) / p) mod 1], element by element. *)
Definition folded (p : Q) (t : list Q) : list Q :=
  map (fun ti => frac ((ti - hd 0 t) / p)) t.

(** Modelled from the spec: [calc_phase] of
    [starspot/phase_dispersion_minimization.py], which is not among the
    sources.  Section 4.2: [phases[i] = ((times[i] - times[0]) / period)
    mod 1], failing with InvalidPeriod when [period <= 0]. *)
Definition calc_phase (p : Q) (t : list Q) : result (list Q) :=
  if Qle_bool p 0 then Raise InvalidPeriod else Ok (folded p t).

(** Modelled from the spec: [sj2(x, xj, nj)] of the same absent module, the
    population variance of section 4.3 step 3: [(1/nj) * sum (x_i - xj)^2].
    Every call below has [nj > 0]. *)
Definition sj2 (x : list Q) (xj : Q) (nj : nat) : Q :=
  Qsum (map (fun xi => (xi - xj) * (xi - xj)) x) / Qnat nj.

Definition mean (x : list Q) : Q := Qsum x / Qnat (length x).

(** Number of occupied bins. *)
Definition occupied (Ns : list nat) : nat :=
  length (filter (fun n => (1 <=? n)%nat) Ns).

Definition total (Ns : list nat) : nat := fold_right Nat.add 0%nat Ns.

(** One term of the pooled numerator: [(nj - 1) * sj2]. *)
Definition pooled_term (ns : nat * Q) : Q := (Qnat (fst ns) - 1) * snd ns.

(** Numerator of the pooled variance: [sum ((nj - 1) * sj2)]. *)
Definition pooled_numerator (Ns : list nat) (sj2s : list Q) : Q :=
  Qsum (map pooled_term (combine Ns sj2s)).

(** Modelled from the spec: [s2(nj, sj2, M)] of the same absent module, the
    pooled variance of section 4.3 step 4: [sum ((nj - 1) * sj2) /
    (sum nj - M)], undefined ([None]) when [sum nj - M <= 0]. *)
Definition s2 (Ns : list nat) (sj2s : list Q) (M : nat) : option Q :=
  let den := Qnat (total Ns) - Qnat M in
  if Qle_bool den 0 then None
  else Some (pooled_numerator Ns sj2s / den).

(** What [phase_bins] returns:
    [x_means, phase_bins, Ns, sj2s, x_binned, phase_binned]. *)
Record binning : Type := mkBinning {
  x_means : list Q;
  phase_bs : list Q;
  Ns : list nat;
  sj2s : list Q;
  x_binned : list (list Q);
  phase_binned : list (list Q)
}.

(** Bin [j] of [nbins] is the half-open interval [j/nbins, (j+1)/nbins). *)
Definition in_bin (nbins j : nat) (ph : Q) : bool :=
  Qle_bool (Qnat j / Qnat nbins) ph && Qltb ph (Qnat (S j) / Qnat nbins).

Definition bin_points (nbins j : nat) (phase x : list Q) : list (Q * Q) :=
  filter (fun px => in_bin nbins j (fst px)) (combine phase x).

Definition bin_mean (xb : list Q) : Q :=
  match xb with [] => 0 | _ :: _ => mean xb end.

(** Variance of one bin about its own mean; a bin of fewer than two points
    has variance 0. *)
Definition bin_sj2 (xb : list Q) : Q :=
  if (length xb <? 2)%nat then 0 else sj2 xb (bin_mean xb) (length xb).

(** Modelled from the spec: [phase_bins(nbins, phase, x)] of the same absent
    module.  Section 4.3 steps 2 and 3: [nbins] equal-width half-open bins
    over [0, 1), each point in the bin of its phase; per bin the count, the
    mean and the population variance about that mean, 0 for a bin of fewer
    than two points. *)
Definition phase_bins (nbins : nat) (phase x : list Q) : binning :=
  let pts := map (fun j => bin_points nbins j phase x) (seq 0 nbins) in
  let xb := map (map snd) pts in
  mkBinning (map bin_mean xb)
            (linspace 0 1 (S nbins))
            (map (@length Q) xb)
            (map bin_sj2 xb)
            xb
            (map (map fst) pts).

(** A ratio of two statistics; undefined when either is, or when the
    divisor is 0. *)
Definition ratio (num : option Q) (den : Q) : option Q :=
  match num with
  | None => None
  | Some s => if Qeq_bool den 0 then None else Some (s / den)
  end.

(** The statistic on validated input. *)
Definition phi_stat (nbins : nat) (phase x : list Q) : option Q :=
  let bs := phase_bins nbins phase x in
  ratio (s2 (Ns bs) (sj2s bs) (occupied (Ns bs)))
        (sj2 x (mean x) (length x)).

(** Modelled from the spec: [phi(nbins, p, t, x)] of the same absent
    module.  Section 4.3: fold at [p], bin, pool the within-bin variances
    with [M] the number of occupied bins, divide by the population variance
    of the unfolded flux; the value is undefined ([None]) when the pooled
    denominator is not positive.  Section 7: non-finite flux, [nbins < 2]
    and [p <= 0] are rejected before anything is computed. *)
Definition phi (nbins : nat) (p : Q) (t : list Q) (x : list float)
  : result (option Q) :=
  match finite_values x with
  | None => Raise InvalidInput
  | Some xs =>
      if (nbins <? 2)%nat then Raise InvalidInput
      else bind (calc_phase p t) (fun phase => Ok (phi_stat nbins phase xs))
  end.

(** The ratio of the regression test [test_phase_bins]:
    [s2(Ns, sj2s, nbins) / sj2(x, mean(x), len(x))] with [Ns], [sj2s] from
    [phase_bins(nbins, calc_phase(p, t), x)]. *)
Definition binned_ratio (nbins : nat) (p : Q) (t x : list Q)
  : result (option Q) :=
  bind (calc_phase p t) (fun phase =>
    let bs := phase_bins nbins phase x in
    let total_variance := sj2 x (mean x) (length x) in
    Ok (ratio (s2 (Ns bs) (sj2s bs) nbins) total_variance)).

(** The dispersion profile of a grid on validated input. *)
Definition profile (nbins : nat) (grid t xs : list Q) : list (option Q) :=
  map (fun p => phi_stat nbins (folded p t) xs) grid.

Section Fit.

(** scipy's nonlinear least-squares fit of
    [b + a * exp (-(P - mu)^2 / (2 sigma^2))] to the whole profile, started
    at the grid minimum: [Some (a, b, mu, sigma)] when it converges. *)
Variable curve_fit :
  list Q -> list (option Q) -> Q -> option (Q * Q * Q * Q).

(** Modelled from the spec: [estimate_uncertainty(period_grid, phis,
    best_period)] of the same absent module, returning [(err, mu, a, b)].
    Section 4.5: the reported uncertainty is [|sigma|] of the fit; when the
    fit does not converge the grid minimum is returned with an infinite
    uncertainty. *)
Definition estimate_uncertainty (period_grid : list Q)
  (phis : list (option Q)) (best_period : Q) : float * Q * float * float :=
  match curve_fit period_grid phis best_period with
  | Some (a, b, mu, sigma) => (Fin (Qabs sigma), mu, Fin a, Fin b)
  | None => (PInf, best_period, NaN, NaN)
  end.

End Fit.

End PDM.

(** ** The orchestrator *)

Module Rotation.

Record RotationModel : Type := mkRotationModel {
  time : list Q;
  flux : list float;
  flux_err : list float;
  Rvar : float;
  freq : option (list Q);
  power : option (list Q);
  ls_period : option float;
  acf_x : option (list Q);
  acf_y : option (list Q);
  lags : option (list Q);
  acf : option (list Q);
  acf_period : option Q;
  pdm_nbins : option nat;
  period_grid : option (list Q);
  phis : option (list (option Q));
  pdm_period : option Q;
  sigma : option float;
  mu : option Q;
  a : option float;
  b : option float;
  period_err : option float;
  phase : option (list Q)
}.

(** [self.freq = v] *)
Definition set_freq (v : list Q) (s : RotationModel) : RotationModel :=
  mkRotationModel (time s) (flux s) (flux_err s) (Rvar s) (Some v)
    (power s) (ls_period s) (acf_x s) (acf_y s) (lags s) (acf s)
    (acf_period s) (pdm_nbins s) (period_grid s) (phis s) (pdm_period s)
    (sigma s) (mu s) (a s) (b s) (period_err s) (phase s).

(** [self.power = v] *)
Definition set_power (v : list Q) (s : RotationModel) : RotationModel :=
  mkRotationModel (time s) (flux s) (flux_err s) (Rvar s) (freq s) (Some v)
    (ls_period s) (acf_x s) (acf_y s) (lags s) (acf s) (acf_period s)
    (pdm_nbins s) (period_grid s) (phis s) (pdm_period s) (sigma s) (mu s)
    (a s) (b s) (period_err s) (phase s).

(** [self.ls_period = v] *)
Definition set_ls_period (v : float) (s : RotationModel) : RotationModel :=
  mkRotationModel (time s) (flux s) (flux_err s) (Rvar s) (freq s)
    (power s) (Some v) (acf_x s) (acf_y s) (lags s) (acf s) (acf_period s)
    (pdm_nbins s) (period_grid s) (phis s) (pdm_period s) (sigma s) (mu s)
    (a s) (b s) (period_err s) (phase s).

(** [self.acf_x = v] *)
Definition set_acf_x (v : list Q) (s : RotationModel) : RotationModel :=
  mkRotationModel (time s) (flux s) (flux_err s) (Rvar s) (freq s)
    (power s) (ls_period s) (Some v) (acf_y s) (lags s) (acf s)
    (acf_period s) (pdm_nbins s) (period_grid s) (phis s) (pdm_period s)
    (sigma s) (mu s) (a s) (b s) (period_err s) (phase s).

(** [self.acf_y = v] *)
Definition set_acf_y (v : list Q) (s : RotationModel) : RotationModel :=
  mkRotationModel (time s) (flux s) (flux_err s) (Rvar s) (freq s)
    (power s) (ls_period s) (acf_x s) (Some v) (lags s) (acf s)
    (acf_period s) (pdm_nbins s) (period_grid s) (phis s) (pdm_period s)
    (sigma s) (mu s) (a s) (b s) (period_err s) (phase s).

(** [self.lags = v] *)
Definition set_lags (v : list Q) (s : RotationModel) : RotationModel :=
  mkRotationModel (time s) (flux s) (flux_err s) (Rvar s) (freq s)
    (power s) (ls_period s) (acf_x s) (acf_y s) (Some v) (acf s)
    (acf_period s) (pdm_nbins s) (period_grid s) (phis s) (pdm_period s)
    (sigma s) (mu s) (a s) (b s) (period_err s) (phase s).

(** [self.acf = v] *)
Definition set_acf (v : list Q) (s : RotationModel) : RotationModel :=
  mkRotationModel (time s) (flux s) (flux_err s) (Rvar s) (freq s)
    (power s) (ls_period s) (acf_x s) (acf_y s) (lags s) (Some v)
    (acf_period s) (pdm_nbins s) (period_grid s) (phis s) (pdm_period s)
    (sigma s) (mu s) (a s) (b s) (period_err s) (phase s).

(** [self.acf_period = v] *)
Definition set_acf_period (v : Q) (s : RotationModel) : RotationModel :=
  mkRotationModel (time s) (flux s) (flux_err s) (Rvar s) (freq s)
    (power s) (ls_period s) (acf_x s) (acf_y s) (lags s) (acf s) (Some v)
    (pdm_nbins s) (period_grid s) (phis s) (pdm_period s) (sigma s) (mu s)
    (a s) (b s) (period_err s) (phase s).

(** [self.pdm_nbins = v] *)
Definition set_pdm_nbins (v : nat) (s : RotationModel) : RotationModel :=
  mkRotationModel (time s) (flux s) (flux_err s) (Rvar s) (freq s)
    (power s) (ls_period s) (acf_x s) (acf_y s) (lags s) (acf s)
    (acf_period s) (Some v) (period_grid s) (phis s) (pdm_period s)
    (sigma s) (mu s) (a s) (b s) (period_err s) (phase s).

(** [self.period_grid = v] *)
Definition set_period_grid (v : list Q) (s : RotationModel) : RotationModel :=
  mkRotationModel (time s) (flux s) (flux_err s) (Rvar s) (freq s)
    (power s) (ls_period s) (acf_x s) (acf_y s) (lags s) (acf s)
    (acf_period s) (pdm_nbins s) (Some v) (phis s) (pdm_period s) (sigma s)
    (mu s) (a s) (b s) (period_err s) (phase s).

(** [self.phis = v] *)
Definition set_phis (v : list (option Q)) (s : RotationModel) : RotationModel :=
  mkRotationModel (time s) (flux s) (flux_err s) (Rvar s) (freq s)
    (power s) (ls_period s) (acf_x s) (acf_y s) (lags s) (acf s)
    (acf_period s) (pdm_nbins s) (period_grid s) (Some v) (pdm_period s)
    (sigma s) (mu s) (a s) (b s) (period_err s) (phase s).

(** [self.pdm_period = v] *)
Definition set_pdm_period (v : Q) (s : RotationModel) : RotationModel :=
  mkRotationModel (time s) (flux s) (flux_err s) (Rvar s) (freq s)
    (power s) (ls_period s) (acf_x s) (acf_y s) (lags s) (acf s)
    (acf_period s) (pdm_nbins s) (period_grid s) (phis s) (Some v)
    (sigma s) (mu s) (a s) (b s) (period_err s) (phase s).

(** [self.sigma = v] *)
Definition set_sigma (v : float) (s : RotationModel) : RotationModel :=
  mkRotationModel (time s) (flux s) (flux_err s) (Rvar s) (freq s)
    (power s) (ls_period s) (acf_x s) (acf_y s) (lags s) (acf s)
    (acf_period s) (pdm_nbins s) (period_grid s) (phis s) (pdm_period s)
    (Some v) (mu s) (a s) (b s) (period_err s) (phase s).

(** [self.mu = v] *)
Definition set_mu (v : Q) (s : RotationModel) : RotationModel :=
  mkRotationModel (time s) (flux s) (flux_err s) (Rvar s) (freq s)
    (power s) (ls_period s) (acf_x s) (acf_y s) (lags s) (acf s)
    (acf_period s) (pdm_nbins s) (period_grid s) (phis s) (pdm_period s)
    (sigma s) (Some v) (a s) (b s) (period_err s) (phase s).

(** [self.a = v] *)
Definition set_a (v : float) (s : RotationModel) : RotationModel :=
  mkRotationModel (time s) (flux s) (flux_err s) (Rvar s) (freq s)
    (power s) (ls_period s) (acf_x s) (acf_y s) (lags s) (acf s)
    (acf_period s) (pdm_nbins s) (period_grid s) (phis s) (pdm_period s)
    (sigma s) (mu s) (Some v) (b s) (period_err s) (phase s).

(** [self.b = v] *)
Definition set_b (v : float) (s : RotationModel) : RotationModel :=
  mkRotationModel (time s) (flux s) (flux_err s) (Rvar s) (freq s)
    (power s) (ls_period s) (acf_x s) (acf_y s) (lags s) (acf s)
    (acf_period s) (pdm_nbins s) (period_grid s) (phis s) (pdm_period s)
    (sigma s) (mu s) (a s) (Some v) (period_err s) (phase s).

(** [self.period_err = v] *)
Definition set_period_err (v : float) (s : RotationModel) : RotationModel :=
  mkRotationModel (time s) (flux s) (flux_err s) (Rvar s) (freq s)
    (power s) (ls_period s) (acf_x s) (acf_y s) (lags s) (acf s)
    (acf_period s) (pdm_nbins s) (period_grid s) (phis s) (pdm_period s)
    (sigma s) (mu s) (a s) (b s) (Some v) (phase s).

(** [self.phase = v] *)
Definition set_phase (v : list Q) (s : RotationModel) : RotationModel :=
  mkRotationModel (time s) (flux s) (flux_err s) (Rvar s) (freq s)
    (power s) (ls_period s) (acf_x s) (acf_y s) (lags s) (acf s)
    (acf_period s) (pdm_nbins s) (period_grid s) (phis s) (pdm_period s)
    (sigma s) (mu s) (a s) (b s) (period_err s) (Some v).

(** *** Statements of a method body: state and exceptions *)

Definition M (A : Type) : Type := RotationModel -> RotationModel * result A.

Definition ret {A} (x : A) : M A := fun s => (s, Ok x).

Definition raise {A} (e : exn) : M A := fun s => (s, Raise e).

Definition lift {A} (r : result A) : M A := fun s => (s, r).

Definition self : M RotationModel := fun s => (s, Ok s).

Definition assign (f : RotationModel -> RotationModel) : M unit :=
  fun s => (f s, Ok tt).

Definition seqM {A B} (m : M A) (k : A -> M B) : M B :=
  fun s =>
    match m s with
    | (s', Ok x) => k x s'
    | (s', Raise e) => (s', Raise e)
    end.

Notation "x <- m ;; k" := (seqM m (fun x => k))
  (at level 61, m at next level, right associativity).
Notation "m ;; k" := (seqM m (fun _ => k))
  (at level 61, right associativity).

(** [assert c] *)
Definition assert_ (c : bool) : M unit :=
  if c then ret tt else raise AssertionError.

(** [xs[0]] *)
Definition first {A} (xs : list A) : result A :=
  match xs with
  | [] => Raise IndexError
  | x :: _ => Ok x
  end.

(** [xs[i]] *)
Definition index {A} (xs : list A) (i : nat) : result A :=
  match nth_error xs i with
  | Some x => Ok x
  | None => Raise IndexError
  end.

(** The [interval] argument of [acf_rotation]. *)
Inductive interval_arg : Type :=
| TESS
| Kepler
| Days (d : Q).

Definition cadence (i : interval_arg) : Q :=
  match i with
  | TESS => 138889 # 100000000
  | Kepler => 2043365 # 100000000
  | Days d => d
  end.

(** Number of frequencies of the default grid of [ls_rotation]. *)
Definition nfreq : nat := Z.to_nat 100000.

(** [1./max_period] and [1./min_period] on Python floats. *)
Definition py_recip (q : Q) : result Q :=
  if Qeq_bool q 0 then Raise ZeroDivisionError else Ok (/ q).

(** [ps[power == target][0]] *)
Fixpoint first_where_equal (ps : list float) (power : list Q) (target : Q)
  : result float :=
  match ps, power with
  | p :: ps', w :: power' =>
      if Qeq_bool w target then Ok p else first_where_equal ps' power' target
  | _, _ => Raise IndexError
  end.

(** [max(power[peaks])] on a non-empty selection. *)
Definition max_at (power : list Q) (peaks : list nat) : Q :=
  match map (Peaks.at_ power) peaks with
  | [] => 0
  | v :: vs => fold_left (fun m w => if Qltb m w then w else m) vs v
  end.

(** [lags[m], acf[m]] for the boolean mask [m = lags > cutoff]. *)
Definition above_cutoff (cutoff : Q) (lags acf : list Q) : list (Q * Q) :=
  filter (fun la => Qltb cutoff (fst la)) (combine lags acf).

(** An object whose derived attributes are all unset. *)
Definition fresh (time : list Q) (flux flux_err : list float) (Rvar : float)
  : RotationModel :=
  mkRotationModel time flux flux_err Rvar
    None None None None None None None None None None None None None None
    None None None None.

Section Methods.

(** [np.percentile] *)
Variable np_percentile : list float -> Q -> float.

(** [apt.LombScargle(time, flux).power(freq)], one power per frequency. *)
Variable LombScargle_power : list Q -> list float -> Q -> Q.

(** [simple_acf(time, flux, interval, smooth, window_length, polyorder)] of
    [starspot/rotation_tools.py], returning [(lags, acf, _x, _y)]. *)
Variable simple_acf :
  list Q -> list float -> Q -> Q -> nat -> nat ->
  list Q * list Q * list Q * list Q.

Variable curve_fit :
  list Q -> list (option Q) -> Q -> option (Q * Q * Q * Q).

(** [RotationModel.__init__] *)
Definition init (time : list Q) (flux flux_err : list float)
  : RotationModel :=
  fresh time flux flux_err
    (fsub (np_percentile flux 95) (np_percentile flux 5)).

(** [RotationModel.ls_rotation] *)
Definition ls_rotation (high_pass : bool) (min_period max_period : Q)
  (samples_per_peak : nat) (input_freq input_power : option (list Q))
  (input_ls_period : option float) : M float :=
  match input_freq, input_power with
  | Some f, Some p => assign (set_freq f) ;; assign (set_power p)
  | _, _ =>
      lo <- lift (py_recip max_period) ;;
      hi <- lift (py_recip min_period) ;;
      assign (set_freq (linspace lo hi nfreq))
  end ;;
  match input_ls_period with
  | Some p =>
      assign (set_ls_period p) ;;
      ret p
  | None =>
      s <- self ;;
      assert_ (length (flux s) =? length (filter isfinite (flux s)))%nat ;;
      let fr := match freq s with Some f => f | None => [] end in
      let pw := map (LombScargle_power (time s) (flux s)) fr in
      assign (set_power pw) ;;
      let ps := map frecip fr in
      let peaks := Peaks.peaks pw in
      match peaks with
      | [] =>
          assign (set_ls_period (Fin 0)) ;;
          ret (Fin 0)
      | _ :: _ =>
          p <- lift (first_where_equal ps pw (max_at pw peaks)) ;;
          assign (set_ls_period p) ;;
          ret p
      end
  end.

(** [RotationModel.acf_rotation] *)
Definition acf_rotation (interval : interval_arg) (smooth cutoff : Q)
  (window_length polyorder : nat) : M Q :=
  s <- self ;;
  let '(lags, acf, _x, _y) :=
    simple_acf (time s) (flux s) (cadence interval) smooth window_length
               polyorder in
  assign (set_acf_x _x) ;;
  assign (set_acf_y _y) ;;
  (if (length lags =? length acf)%nat then ret tt else raise IndexError) ;;
  let masked := above_cutoff cutoff lags acf in
  let '(xpeaks, ypeaks) :=
    Peaks.get_peak_statistics (map fst masked) (map snd masked)
                              Peaks.Height in
  assign (set_lags (map fst masked)) ;;
  assign (set_acf (map snd masked)) ;;
  p <- lift (first xpeaks) ;;
  assign (set_acf_period p) ;;
  ret p.

(** [RotationModel.pdm_rotation].  The test [hasattr(self.pdm_period,
    'len')] is false for a float, so its branch is never taken. *)
Definition pdm_rotation (grid : list Q) (nbins : nat) : M (Q * float) :=
  assign (set_pdm_nbins nbins) ;;
  assign (set_period_grid grid) ;;
  s <- self ;;
  phis <- lift (mapM (fun p => PDM.phi nbins p (time s) (flux s)) grid) ;;
  assign (set_phis phis) ;;
  ind <- lift (argmin phis) ;;
  best <- lift (index grid ind) ;;
  assign (set_pdm_period best) ;;
  let '(err, mu, a, b) :=
    PDM.estimate_uncertainty curve_fit grid phis best in
  assign (set_sigma err) ;;
  assign (set_mu mu) ;;
  assign (set_a a) ;;
  assign (set_b b) ;;
  assign (set_period_err err) ;;
  phase <- lift (PDM.calc_phase best (time s)) ;;
  assign (set_phase phase) ;;
  ret (best, err).

End Methods.

(** *** Vocabulary for the statements about the methods *)

(** The light-curve arrays of two objects agree. *)
Definition same_light_curve (s s' : RotationModel) : Prop :=
  time s' = time s /\ flux s' = flux s /\ flux_err s' = flux_err s.

(** A method body that leaves the light-curve arrays as they were, whether
    it returns or raises. *)
Definition preserves {A} (m : M A) : Prop :=
  forall s, same_light_curve s (fst (m s)).

(** The frequency grid can be set: both [input_freq] and [input_power] are
    given, or neither period bound is zero. *)
Definition grid_defined (min_period max_period : Q)
  (input_freq input_power : option (list Q)) : Prop :=
  (exists f w, input_freq = Some f /\ input_power = Some w) \/
  (~ min_period == 0 /\ ~ max_period == 0).

(** The object after the first statement of [ls_rotation]. *)
Definition with_grid (min_period max_period : Q)
  (input_freq input_power : option (list Q)) (s : RotationModel)
  : RotationModel :=
  match input_freq, input_power with
  | Some f, Some w => set_power w (set_freq f s)
  | _, _ => set_freq (linspace (/ max_period) (/ min_period) nfreq) s
  end.

(** The object after a [pdm_rotation] call that reaches its last
    statement, with profile [phis] and grid minimum [best]. *)
Definition pdm_state
  (curve_fit : list Q -> list (option Q) -> Q -> option (Q * Q * Q * Q))
  (grid : list Q) (nbins : nat) (phis : list (option Q)) (best : Q)
  (s : RotationModel) : RotationModel :=
  let '(err, mu, a, b) :=
    PDM.estimate_uncertainty curve_fit grid phis best in
  set_phase (PDM.folded best (time s))
    (set_period_err err (set_b b (set_a a (set_mu mu (set_sigma err
      (set_pdm_period best (set_phis phis (set_period_grid grid
        (set_pdm_nbins nbins s))))))))).

(** The object after an [acf_rotation] call that reaches its last
    statement. *)
Definition acf_state (_x _y lags acf : list Q) (s : RotationModel)
  : RotationModel :=
  set_acf acf (set_lags lags (set_acf_y _y (set_acf_x _x s))).

(** The first component of what [estimate_uncertainty] returns. *)
Definition reported_error (fit : float * Q * float * float) : float :=
  let '(err, _, _, _) := fit in err.

(** *** Attribute groups *)

(** What [ls_rotation] assigns. *)
Definition ls_attrs (s : RotationModel) :=
  (freq s, power s, ls_period s).

(** What [acf_rotation] assigns. *)
Definition acf_attrs (s : RotationModel) :=
  (acf_x s, acf_y s, lags s, acf s, acf_period s).

(** What [pdm_rotation] assigns. *)
Definition pdm_attrs (s : RotationModel) :=
  (pdm_nbins s, period_grid s, phis s, pdm_period s, sigma s, mu s, a s,
   b s, period_err s, phase s).

(** A method body that leaves a view of the object as it was, whether it
    returns or raises. *)
Definition keeps {A B} (view : RotationModel -> B) (m : M A) : Prop :=
  forall s, view (fst (m s)) = view s.

End Rotation.

(** ** The Gaussian-process kernel *)

Module GP.
Import Reals String.
Local Open Scope R_scope.
Local Open Scope string_scope.

(** A term [kernels.quasisep.SHO(sigma, omega, quality)]. *)
Record SHO : Type := mkSHO {
  sho_sigma : R;
  sho_omega : R;
  sho_quality : R
}.

(** [GaussianProcess(kernel, t, diag=..., mean=...)]; the kernel is the
    sum of its terms. *)
Record GaussianProcess : Type := mkGaussianProcess {
  kernel : list SHO;
  X : list R;
  diag : list R;
  mean : R
}.

(** The [params] dictionary. *)
Definition dict : Type := list (string * R).

(** A value, or the KeyError of a missing key. *)
Inductive outcome (A : Type) : Type :=
| Built (a : A)
| KeyError (key : string).
Arguments Built {A} a.
Arguments KeyError {A} key.

(** [d[key]] *)
Fixpoint item (d : dict) (key : string) : outcome R :=
  match d with
  | [] => KeyError key
  | (k, v) :: r => if String.eqb k key then Built v else item r key
  end.

Definition and_then {A B} (o : outcome A) (k : A -> outcome B) : outcome B :=
  match o with
  | Built a => k a
  | KeyError key => KeyError key
  end.

(** The keys [build_gp] reads, in the order it reads them. *)
Definition keys : list string :=
  ["log_sigma"; "log_period"; "log_Q0"; "log_deltaQ"; "log_f"; "log_Sw4";
   "log_w0"; "log_jitter"; "mean"].

(** [build_gp(params, t, yerr)] *)
Definition build_gp (params : dict) (t yerr : list R)
  : outcome GaussianProcess :=
  and_then (item params "log_sigma") (fun log_sigma =>
  and_then (item params "log_period") (fun log_period =>
  and_then (item params "log_Q0") (fun log_Q0 =>
  and_then (item params "log_deltaQ") (fun log_deltaQ =>
  and_then (item params "log_f") (fun log_f =>
  let sigma := exp log_sigma in
  let period := exp log_period in
  let Q0 := exp log_Q0 in
  let dQ := exp log_deltaQ in
  let f := exp log_f in
  and_then (item params "log_Sw4") (fun log_Sw4 =>
  and_then (item params "log_w0") (fun log_w0 =>
  let Sw4 := exp log_Sw4 in
  let w0 := exp log_w0 in
  let amp := sigma ^ 2 / (1 + f) in
  let Q1 := 1 / 2 + Q0 + dQ in
  let w1 := 4 * PI * Q1 / (period * sqrt (4 * Q1 ^ 2 - 1)) in
  let S1 := amp / (w1 * Q1) in
  let Q2 := 1 / 2 + Q0 in
  let w2 := 8 * PI * Q2 / (period * sqrt (4 * Q2 ^ 2 - 1)) in
  let S2 := f * amp / (w2 * Q2) in
  let kernel :=
    [mkSHO S1 w1 Q1; mkSHO S2 w2 Q2; mkSHO (Sw4 / w0 ^ 4) w0 (1 / sqrt 2)] in
  and_then (item params "log_jitter") (fun log_jitter =>
  and_then (item params "mean") (fun mean =>
  Built (mkGaussianProcess kernel t
           (map (fun e => e ^ 2 + exp log_jitter) yerr) mean)))))))))).

End GP.

(** * Part II: properties *)

(** ** Facts about the numeric prelude *)

Module NumFacts.

Lemma Qltb_lt (a b : Q) : Qltb a b = true <-> a < b.
Proof.
  unfold Qltb. rewrite negb_true_iff.
  split; intro H.
  - apply Qnot_le_lt. intro L. apply Qle_bool_iff in L. congruence.
  - destruct (Qle_bool b a) eqn:E; [|reflexivity].
    apply Qle_bool_iff in E. exfalso. exact (Qlt_not_le _ _ H E).
Qed.

Lemma Qltb_ge (a b : Q) : Qltb a b = false <-> b <= a.
Proof.
  unfold Qltb. rewrite negb_false_iff. apply Qle_bool_iff.
Qed.

Lemma Qle_bool_false (a b : Q) : Qle_bool a b = false <-> b < a.
Proof.
  rewrite <- Qltb_lt. unfold Qltb. now rewrite negb_true_iff.
Qed.

Lemma filter_none {A} (f : A -> bool) (l : list A) :
  (forall x, In x l -> f x = false) -> filter f l = [].
Proof.
  induction l as [|a l IH]; intro H; [reflexivity|]. simpl.
  rewrite (H a (or_introl eq_refl)). apply IH. intros x Hx. apply H. now right.
Qed.

Lemma finite_values_length (xs : list float) (l : list Q) :
  finite_values xs = Some l -> length l = length xs.
Proof.
  revert l. induction xs as [|x r IH]; intros l H; simpl in H.
  - now inversion H.
  - destruct x; try discriminate.
    destruct (finite_values r) as [l'|]; [|discriminate].
    inversion H; subst. simpl. now rewrite (IH l').
Qed.

Lemma finite_values_all (xs : list float) :
  (exists l, finite_values xs = Some l) <->
  forallb isfinite xs = true.
Proof.
  induction xs as [|x r IH]; simpl.
  - split; [reflexivity|]. intros _. now exists [].
  - destruct x; simpl.
    + rewrite <- IH. split.
      * intros [l H]. destruct (finite_values r) as [l'|]; [|discriminate].
        now exists l'.
      * intros [l' H]. rewrite H. now exists (q :: l').
    + split; [intros [l H]|]; discriminate.
    + split; [intros [l H]|]; discriminate.
    + split; [intros [l H]|]; discriminate.
Qed.

(** The assertion of [ls_rotation] holds exactly on all-finite flux. *)
Lemma count_finite (xs : list float) :
  (length xs =? length (filter isfinite xs))%nat = forallb isfinite xs.
Proof.
  assert (L : forall l, (length (filter isfinite l) <= length l)%nat).
  { induction l as [|x r IH]; simpl; [lia|]. destruct (isfinite x); simpl; lia. }
  induction xs as [|x r IH]; [reflexivity|].
  simpl. destruct (isfinite x); simpl.
  - exact IH.
  - specialize (L r). destruct (length (filter isfinite r)) as [|k] eqn:E.
    + reflexivity.
    + apply Nat.eqb_neq. lia.
Qed.

End NumFacts.
Import NumFacts.

(** ** Facts about the peak comprehension *)

Module PeaksFacts.
Import Peaks.

Lemma nth_error_at (y : list Q) (i : nat) :
  (i < length y)%nat -> nth_error y i = Some (at_ y i).
Proof. intro H. unfold at_. apply nth_error_nth'. exact H. Qed.

Lemma is_peak_spec (y : list Q) (i : nat) :
  (1 <= i <= length y - 2)%nat ->
  is_peak y i = true <-> at_ y (i - 1) < at_ y i /\ at_ y (i + 1) < at_ y i.
Proof.
  intro B. unfold is_peak.
  rewrite !nth_error_at by lia.
  rewrite andb_true_iff, !Qltb_lt. tauto.
Qed.

Lemma peaks_iff (y : list Q) (i : nat) :
  In i (peaks y) <-> strict_local_max y i.
Proof.
  unfold peaks, strict_local_max. rewrite filter_In, in_seq. split.
  - intros [B P]. assert (B' : (1 <= i <= length y - 2)%nat) by lia.
    split; [exact B'|]. apply is_peak_spec; assumption.
  - intros [B P]. split; [lia|]. apply is_peak_spec; assumption.
Qed.

Lemma peaks_nil (y : list Q) :
  (forall i, ~ strict_local_max y i) -> peaks y = [].
Proof.
  intro H. unfold peaks. apply filter_none. intros i Hi.
  destruct (is_peak y i) eqn:E; [|reflexivity].
  exfalso. apply (H i). apply peaks_iff. unfold peaks.
  apply filter_In. split; assumption.
Qed.

Lemma peaks_single (y : list Q) (k : nat) :
  strict_local_max y k ->
  (forall i, i <> k -> ~ strict_local_max y i) ->
  peaks y = [k].
Proof.
  intros Hk Hother. unfold peaks.
  destruct Hk as [B P].
  replace (length y - 2)%nat with ((k - 1) + S (length y - 2 - k))%nat by lia.
  rewrite seq_app. replace (1 + (k - 1))%nat with k by lia.
  rewrite filter_app. cbn [seq filter].
  assert (Ek : is_peak y k = true) by (apply is_peak_spec; assumption).
  rewrite Ek.
  assert (N : forall l,
             (forall i, In i l -> i <> k /\ (1 <= i <= length y - 2)%nat) ->
             filter (is_peak y) l = []).
  { intros l Hl. apply filter_none. intros i Hi. destruct (Hl i Hi) as [Ne Bi].
    destruct (is_peak y i) eqn:E; [|reflexivity].
    exfalso. apply (Hother i Ne). split; [exact Bi|].
    apply is_peak_spec; assumption. }
  rewrite !N; [reflexivity| |].
  - intros i Hi. apply in_seq in Hi. lia.
  - intros i Hi. apply in_seq in Hi. lia.
Qed.

Lemma rise_le (y : list Q) (k : nat) :
  (forall i, (i < k)%nat -> at_ y i < at_ y (S i)) ->
  forall d i, (i + d = k)%nat -> at_ y i <= at_ y k.
Proof.
  intros Up d. induction d as [|d IH]; intros i E.
  - replace i with k by lia. apply Qle_refl.
  - apply Qle_trans with (at_ y (S i)).
    + apply Qlt_le_weak. apply Up. lia.
    + apply IH. lia.
Qed.

Lemma fall_le (y : list Q) (k : nat) :
  (forall i, (k <= i)%nat -> (S i < length y)%nat -> at_ y (S i) < at_ y i) ->
  forall d i, (k + d = i)%nat -> (i < length y)%nat -> at_ y i <= at_ y k.
Proof.
  intros Down d. induction d as [|d IH]; intros i E L.
  - replace i with k by lia. apply Qle_refl.
  - destruct i as [|i]; [lia|].
    apply Qle_trans with (at_ y i).
    + apply Qlt_le_weak. apply Down; lia.
    + apply IH; lia.
Qed.

Lemma monotone_no_peak (y : list Q) :
  strictly_increasing y \/ strictly_decreasing y -> peaks y = [].
Proof.
  intros [Inc|Dec]; apply peaks_nil.
  - intros i [B [_ P]]. specialize (Inc i ltac:(lia)).
    replace (i + 1)%nat with (S i) in P by lia.
    exact (Qlt_irrefl _ (Qlt_trans _ _ _ Inc P)).
  - intros i [B [P _]]. specialize (Dec (i - 1)%nat ltac:(lia)).
    replace (S (i - 1)) with i in Dec by lia.
    exact (Qlt_irrefl _ (Qlt_trans _ _ _ Dec P)).
Qed.

Lemma unimodal_one_peak (y : list Q) (k : nat) :
  rises_then_falls y k -> peaks y = [k].
Proof.
  intros [B [Up Down]]. apply peaks_single.
  - split; [exact B|]. split.
    + specialize (Up (k - 1)%nat ltac:(lia)).
      replace (S (k - 1)) with k in Up by lia. exact Up.
    + specialize (Down k ltac:(lia) ltac:(lia)).
      replace (k + 1)%nat with (S k) by lia. exact Down.
  - intros i Ne [Bi [Pl Pr]].
    destruct (Nat.lt_ge_cases i k) as [Lt|Ge].
    + specialize (Up i Lt).
      replace (i + 1)%nat with (S i) in Pr by lia.
      exact (Qlt_irrefl _ (Qlt_trans _ _ _ Up Pr)).
    + specialize (Down (i - 1)%nat ltac:(lia) ltac:(lia)).
      replace (S (i - 1)) with i in Down by lia.
      exact (Qlt_irrefl _ (Qlt_trans _ _ _ Down Pl)).
Qed.

Lemma unimodal_maximum (y : list Q) (k : nat) :
  rises_then_falls y k ->
  forall i, (i < length y)%nat -> at_ y i <= at_ y k.
Proof.
  intros [B [Up Down]] i Hi.
  destruct (Nat.le_gt_cases i k) as [Le|Gt].
  - apply (rise_le y k Up (k - i) i). lia.
  - apply (fall_le y k Down (i - k) i); lia.
Qed.

Lemma plateau_no_peak (y : list Q) (i : nat) :
  (S i < length y)%nat -> at_ y i == at_ y (S i) ->
  ~ In i (peaks y) /\ ~ In (S i) (peaks y).
Proof.
  intros L E. split; intro Hin; apply peaks_iff in Hin.
  - destruct Hin as [B [_ P]].
    replace (i + 1)%nat with (S i) in P by lia.
    rewrite E in P. exact (Qlt_irrefl _ P).
  - destruct Hin as [B [P _]].
    replace (S i - 1)%nat with i in P by lia.
    rewrite E in P. exact (Qlt_irrefl _ P).
Qed.

End PeaksFacts.

(** C4. On every sampled curve of length at least three, each index kept by
    the peak comprehension of [ls_rotation] is an interior strict local
    maximum; end points and plateau points are never kept; a strictly
    monotonic curve has no peak, and a curve that strictly rises to index [k]
    and strictly falls after it has exactly the one peak [k], which is its
    maximum. *)
Theorem peaks_are_strict_local_maxima (y : list Q)
  (H3 : (3 <= length y)%nat) :
  (forall i, In i (Peaks.peaks y) ->
     (1 <= i <= length y - 2)%nat /\
     Peaks.at_ y (i - 1) < Peaks.at_ y i /\
     Peaks.at_ y (i + 1) < Peaks.at_ y i) /\
  ~ In 0%nat (Peaks.peaks y) /\
  ~ In (length y - 1)%nat (Peaks.peaks y) /\
  (forall i, (S i < length y)%nat -> Peaks.at_ y i == Peaks.at_ y (S i) ->
     ~ In i (Peaks.peaks y) /\ ~ In (S i) (Peaks.peaks y)) /\
  (Peaks.strictly_increasing y \/ Peaks.strictly_decreasing y ->
     Peaks.peaks y = []) /\
  (forall k, Peaks.rises_then_falls y k ->
     Peaks.peaks y = [k] /\
     forall i, (i < length y)%nat -> Peaks.at_ y i <= Peaks.at_ y k).
Proof.
  split; [|split; [|split; [|split; [|split]]]].
  - intros i Hin. apply PeaksFacts.peaks_iff in Hin. exact Hin.
  - intro Hin. apply PeaksFacts.peaks_iff in Hin. destruct Hin as [B _]. lia.
  - intro Hin. apply PeaksFacts.peaks_iff in Hin. destruct Hin as [B _]. lia.
  - apply PeaksFacts.plateau_no_peak.
  - apply PeaksFacts.monotone_no_peak.
  - intros k Hk. split.
    + now apply PeaksFacts.unimodal_one_peak.
    + now apply PeaksFacts.unimodal_maximum.
Qed.

(** The curve 1, 3, 7, 4, 2 rises to index 2 and falls after it. *)
Lemma peaks_are_strict_local_maxima_witness :
  Peaks.peaks [1; 3; 7; 4; 2] = [2%nat] /\
  ~ In 0%nat (Peaks.peaks [1; 3; 7; 4; 2]).
Proof.
  pose proof (peaks_are_strict_local_maxima [1; 3; 7; 4; 2]
                ltac:(simpl; lia)) as [_ [H0 [_ [_ [_ H]]]]].
  split; [|exact H0].
  apply (H 2%nat). split; [simpl; lia|]. split.
  - intros i Hi. destruct i as [|[|i]]; [reflexivity|reflexivity|lia].
  - intros i Hi Hl. simpl in Hl.
    destruct i as [|[|[|[|i]]]]; try lia; reflexivity.
Defined.

(** ** Frame reasoning for method bodies *)

Module Frame.
Import Rotation.

Lemma same_refl s : same_light_curve s s.
Proof. repeat split. Qed.

Lemma same_trans s1 s2 s3 :
  same_light_curve s1 s2 -> same_light_curve s2 s3 -> same_light_curve s1 s3.
Proof.
  intros [A1 [B1 C1]] [A2 [B2 C2]]. repeat split; congruence.
Qed.

Lemma preserves_ret {A} (x : A) : preserves (ret x).
Proof. intro s. apply same_refl. Qed.

Lemma preserves_raise {A} (e : exn) : preserves (@raise A e).
Proof. intro s. apply same_refl. Qed.

Lemma preserves_lift {A} (r : result A) : preserves (lift r).
Proof. intro s. apply same_refl. Qed.

Lemma preserves_self : preserves self.
Proof. intro s. apply same_refl. Qed.

Lemma preserves_assert (c : bool) : preserves (assert_ c).
Proof. destruct c; [apply preserves_ret|apply preserves_raise]. Qed.

Lemma preserves_assign (f : RotationModel -> RotationModel) :
  (forall s, same_light_curve s (f s)) -> preserves (assign f).
Proof. intros H s. apply H. Qed.

Lemma preserves_seqM {A B} (m : M A) (k : A -> M B) :
  preserves m -> (forall x, preserves (k x)) -> preserves (seqM m k).
Proof.
  intros Hm Hk s. unfold seqM. specialize (Hm s).
  destruct (m s) as [s' [x|e]]; simpl in *.
  - eapply same_trans; [exact Hm|apply Hk].
  - exact Hm.
Qed.

(** Every attribute write of the three methods targets a derived
    attribute. *)
Ltac setter := apply preserves_assign; intro; repeat split.

Ltac frame_step :=
  match goal with
  | |- preserves (seqM _ _) => apply preserves_seqM; [|intro]
  | |- preserves (assign _) => setter
  | |- preserves (ret _) => apply preserves_ret
  | |- preserves (raise _) => apply preserves_raise
  | |- preserves (lift _) => apply preserves_lift
  | |- preserves self => apply preserves_self
  | |- preserves (assert_ _) => apply preserves_assert
  | |- preserves (match ?x with _ => _ end) => destruct x
  | |- preserves (let '(_, _) := ?x in _) => destruct x
  end.

Section Methods.

Variable LombScargle_power : list Q -> list float -> Q -> Q.
Variable simple_acf :
  list Q -> list float -> Q -> Q -> nat -> nat ->
  list Q * list Q * list Q * list Q.
Variable curve_fit :
  list Q -> list (option Q) -> Q -> option (Q * Q * Q * Q).

Lemma ls_rotation_preserves hp lo hi spp ifr ipw ilp :
  preserves (ls_rotation LombScargle_power hp lo hi spp ifr ipw ilp).
Proof.
  unfold ls_rotation. repeat frame_step.
Qed.

Lemma acf_rotation_preserves interval smooth cutoff wl po :
  preserves (acf_rotation simple_acf interval smooth cutoff wl po).
Proof.
  unfold acf_rotation. repeat frame_step.
Qed.

Lemma pdm_rotation_preserves grid nbins :
  preserves (pdm_rotation curve_fit grid nbins).
Proof.
  unfold pdm_rotation. repeat frame_step.
Qed.

End Methods.

End Frame.

(** C9. Each period-measuring method ([ls_rotation], [acf_rotation],
    [pdm_rotation]) leaves the [time], [flux] and [flux_err] arrays stored at
    construction exactly as they were, for every object and all arguments,
    whether the call returns or raises; only derived attributes are
    written. *)
Theorem light_curve_unchanged
  (LombScargle_power : list Q -> list Num.float -> Q -> Q)
  (simple_acf : list Q -> list Num.float -> Q -> Q -> nat -> nat ->
                list Q * list Q * list Q * list Q)
  (curve_fit : list Q -> list (option Q) -> Q -> option (Q * Q * Q * Q))
  (s : Rotation.RotationModel) :
  (forall hp lo hi spp ifr ipw ilp,
     Rotation.same_light_curve s
       (fst (Rotation.ls_rotation LombScargle_power hp lo hi spp ifr ipw
               ilp s))) /\
  (forall interval smooth cutoff wl po,
     Rotation.same_light_curve s
       (fst (Rotation.acf_rotation simple_acf interval smooth cutoff wl po
               s))) /\
  (forall grid nbins,
     Rotation.same_light_curve s
       (fst (Rotation.pdm_rotation curve_fit grid nbins s))).
Proof.
  split; [|split]; intros.
  - apply Frame.ls_rotation_preserves.
  - apply Frame.acf_rotation_preserves.
  - apply Frame.pdm_rotation_preserves.
Qed.

(** ** The Lomb-Scargle method *)

Module LS.
Import Rotation.

Lemma py_recip_ok (q : Q) : ~ q == 0 -> py_recip q = Ok (/ q).
Proof.
  intro H. unfold py_recip. destruct (Qeq_bool q 0) eqn:E; [|reflexivity].
  apply Qeq_bool_iff in E. contradiction.
Qed.

Section Methods.

Variable LombScargle_power : list Q -> list float -> Q -> Q.

(** With [input_ls_period] given, the method is the grid assignment
    followed by the assignment of [ls_period]. *)
Lemma ls_rotation_given hp lo hi spp ifr ipw p s :
  grid_defined lo hi ifr ipw ->
  ls_rotation LombScargle_power hp lo hi spp ifr ipw (Some p) s =
  (set_ls_period p (with_grid lo hi ifr ipw s), Ok p).
Proof.
  intros G. unfold ls_rotation, with_grid.
  destruct ifr as [f|], ipw as [w|]; try reflexivity;
    destruct G as [[f' [w' [E1 E2]]]|[Hlo Hhi]]; try discriminate;
    unfold seqM, lift, assign, ret;
    rewrite (py_recip_ok _ Hhi), (py_recip_ok _ Hlo); reflexivity.
Qed.

(** Without it, on all-finite flux, the periodogram is computed and its
    peaks decide. *)
Lemma ls_rotation_computed hp lo hi spp ifr ipw s :
  grid_defined lo hi ifr ipw ->
  forallb isfinite (flux s) = true ->
  let s1 := with_grid lo hi ifr ipw s in
  let fr := match freq s1 with Some f => f | None => [] end in
  let pw := map (LombScargle_power (time s) (flux s)) fr in
  ls_rotation LombScargle_power hp lo hi spp ifr ipw None s =
  match Peaks.peaks pw with
  | [] => (set_ls_period (Fin 0) (set_power pw s1), Ok (Fin 0))
  | k :: ks =>
      match first_where_equal (map frecip fr) pw (max_at pw (k :: ks)) with
      | Ok p => (set_ls_period p (set_power pw s1), Ok p)
      | Raise e => (set_power pw s1, Raise e)
      end
  end.
Proof.
  intros G F. cbv zeta.
  assert (E : forall (k : unit -> M float),
     seqM (match ifr, ipw with
           | Some f, Some p => seqM (assign (set_freq f))
                                    (fun _ => assign (set_power p))
           | _, _ =>
               seqM (lift (py_recip hi)) (fun lo0 =>
               seqM (lift (py_recip lo)) (fun hi0 =>
               assign (set_freq (linspace lo0 hi0 nfreq))))
           end) k s = k tt (with_grid lo hi ifr ipw s)).
  { intro k. unfold with_grid.
    destruct ifr as [f|], ipw as [w|]; try reflexivity;
      destruct G as [[f' [w' [E1 E2]]]|[Hlo Hhi]]; try discriminate;
      unfold seqM, lift, assign;
      rewrite (py_recip_ok _ Hhi), (py_recip_ok _ Hlo); reflexivity. }
  unfold ls_rotation. rewrite E.
  assert (T : time (with_grid lo hi ifr ipw s) = time s /\
              flux (with_grid lo hi ifr ipw s) = flux s).
  { unfold with_grid. destruct ifr, ipw; split; reflexivity. }
  destruct T as [T1 T2].
  unfold seqM at 1. unfold self at 1.
  unfold seqM at 1. rewrite T2, count_finite, F. unfold assert_, ret at 1.
  rewrite T1.
  set (fr := match freq (with_grid lo hi ifr ipw s) with
             | Some f => f | None => [] end).
  set (pw := map (LombScargle_power (time s) (flux s)) fr).
  unfold seqM at 1. unfold assign at 1.
  destruct (Peaks.peaks pw) as [|k ks].
  - reflexivity.
  - unfold seqM, lift, assign, ret.
    destruct (first_where_equal (map frecip fr) pw (max_at pw (k :: ks)));
      reflexivity.
Qed.

(** On flux with a non-finite value the assertion fails before the
    periodogram is computed. *)
Lemma ls_rotation_rejects hp lo hi spp ifr ipw s :
  grid_defined lo hi ifr ipw ->
  forallb isfinite (flux s) = false ->
  ls_rotation LombScargle_power hp lo hi spp ifr ipw None s =
  (with_grid lo hi ifr ipw s, Raise AssertionError).
Proof.
  intros G F.
  assert (T : flux (with_grid lo hi ifr ipw s) = flux s).
  { unfold with_grid. destruct ifr, ipw; reflexivity. }
  unfold ls_rotation, with_grid in *.
  destruct ifr as [f|], ipw as [w|];
    try (destruct G as [[f' [w' [E1 E2]]]|[Hlo Hhi]]; try discriminate;
         unfold seqM at 1; unfold seqM at 1; unfold lift at 1;
         rewrite (py_recip_ok _ Hhi); unfold seqM at 1; unfold lift at 1;
         rewrite (py_recip_ok _ Hlo); unfold assign at 1);
    try (unfold seqM at 1; unfold seqM at 1; unfold assign at 1 2);
    unfold seqM at 1; unfold self at 1; unfold seqM at 1;
    rewrite T, count_finite, F; reflexivity.
Qed.

End Methods.

End LS.



(** ** Facts about folding and binning *)

Module PDMFacts.
Import PDM.

Lemma frac_range (q : Q) : 0 <= frac q /\ frac q < 1.
Proof.
  unfold frac. pose proof (Qfloor_le q) as L. pose proof (Qlt_floor q) as U.
  rewrite inject_Z_plus in U. change (inject_Z 1) with 1 in U.
  split.
  - apply (Qplus_le_l _ _ (inject_Z (Qfloor q))). ring_simplify. exact L.
  - apply (Qplus_lt_l _ _ (inject_Z (Qfloor q))). ring_simplify.
    exact U.
Qed.

Lemma calc_phase_ok (p : Q) (t : list Q) :
  0 < p ->
  calc_phase p t = Ok (folded p t).
Proof.
  intro Hp. unfold calc_phase.
  destruct (Qle_bool p 0) eqn:E; [|reflexivity].
  apply Qle_bool_iff in E. exfalso. exact (Qlt_not_le _ _ Hp E).
Qed.


Lemma Qnat_pos (n : nat) : (1 <= n)%nat -> 0 < Qnat n.
Proof.
  intro H. unfold Qnat. change 0 with (inject_Z 0).
  rewrite <- Zlt_Qlt. lia.
Qed.

Lemma Qnat_nonzero (n : nat) : (1 <= n)%nat -> ~ Qnat n == 0.
Proof.
  intros H E. pose proof (Qnat_pos n H) as P. rewrite E in P.
  exact (Qlt_irrefl _ P).
Qed.

Lemma Qnat_le (n m : nat) : (n <= m)%nat -> Qnat n <= Qnat m.
Proof. intro H. unfold Qnat. rewrite <- Zle_Qle. lia. Qed.

(** The mean of a non-empty bin times its size is the sum of the bin. *)
Lemma bin_mean_sum (xb : list Q) :
  (1 <= length xb)%nat -> bin_mean xb * Qnat (length xb) == Qsum xb.
Proof.
  intro H. destruct xb as [|x r]; [simpl in H; lia|].
  unfold bin_mean, mean. field. now apply Qnat_nonzero.
Qed.

(** A bin of at least two points has the population variance about its
    own mean. *)
Lemma bin_sj2_population (xb : list Q) :
  (2 <= length xb)%nat ->
  bin_sj2 xb * Qnat (length xb) ==
  Qsum (map (fun xi => (xi - bin_mean xb) * (xi - bin_mean xb)) xb).
Proof.
  intro H. unfold bin_sj2.
  destruct (length xb <? 2)%nat eqn:E; [apply Nat.ltb_lt in E; lia|].
  unfold sj2. field. apply Qnat_nonzero. lia.
Qed.

(** On a one-point bin the population formula gives 0 as well. *)
Lemma bin_sj2_single (x : Q) :
  bin_sj2 [x] = 0 /\
  Qsum (map (fun xi => (xi - bin_mean [x]) * (xi - bin_mean [x])) [x]) == 0.
Proof.
  split; [reflexivity|]. unfold bin_mean, mean. simpl.
  unfold Qnat. simpl. field.
Qed.

Lemma bin_sj2_small (xb : list Q) :
  (length xb < 2)%nat -> bin_sj2 xb = 0.
Proof.
  intro H. unfold bin_sj2. apply Nat.ltb_lt in H. now rewrite H.
Qed.

(** Dropping the terms that are 0 does not change the sum. *)
Lemma Qsum_filter (keep : nat * Q -> bool) (l : list (nat * Q)) :
  (forall ns, In ns l -> keep ns = false -> pooled_term ns == 0) ->
  Qsum (map pooled_term l) == Qsum (map pooled_term (filter keep l)).
Proof.
  induction l as [|ns r IH]; intro H; [reflexivity|].
  simpl. destruct (keep ns) eqn:E; simpl.
  - rewrite IH; [reflexivity|]. intros x Hx. apply H. now right.
  - rewrite (H ns (or_introl eq_refl) E), IH; [ring|].
    intros x Hx. apply H. now right.
Qed.

Lemma combine_map {A B C} (f : A -> B) (g : A -> C) (l : list A) :
  combine (map f l) (map g l) = map (fun x => (f x, g x)) l.
Proof. induction l as [|x r IH]; simpl; [reflexivity|now rewrite IH]. Qed.

Lemma binning_lengths (nbins : nat) (phase x : list Q) :
  let bs := phase_bins nbins phase x in
  length (Ns bs) = nbins /\ length (sj2s bs) = nbins /\
  length (x_means bs) = nbins /\ length (x_binned bs) = nbins.
Proof.
  cbv zeta. unfold phase_bins. simpl.
  repeat rewrite ?length_map, ?length_seq. repeat split.
Qed.

(** Bin [j] read out of the result of [phase_bins]. *)
Lemma binning_at (nbins : nat) (phase x : list Q) (j : nat) :
  let bs := phase_bins nbins phase x in
  let xb := nth j (x_binned bs) [] in
  nth j (Ns bs) 0%nat = length xb /\
  nth j (x_means bs) 0 = bin_mean xb /\
  nth j (sj2s bs) 0 = bin_sj2 xb.
Proof.
  cbv zeta. unfold phase_bins. simpl.
  set (xb := map (map snd)
               (map (fun j0 => bin_points nbins j0 phase x) (seq 0 nbins))).
  repeat split.
  - change 0%nat with (@length Q []) at 1. apply map_nth.
  - change 0 with (bin_mean []) at 1. apply map_nth.
  - change 0 with (bin_sj2 []) at 1. apply map_nth.
Qed.

(** The pooled numerator only receives from bins of two or more points. *)
Lemma pooled_numerator_large_bins (nbins : nat) (phase x : list Q) :
  let bs := phase_bins nbins phase x in
  pooled_numerator (Ns bs) (sj2s bs) ==
  Qsum (map pooled_term
          (filter (fun ns => (2 <=? fst ns)%nat)
                  (combine (Ns bs) (sj2s bs)))).
Proof.
  cbv zeta. unfold pooled_numerator.
  apply Qsum_filter. unfold phase_bins. cbn [Ns sj2s].
  rewrite combine_map. intros ns Hin Hk.
  apply in_map_iff in Hin. destruct Hin as [xb [E _]]. subst ns.
  cbn [fst] in Hk. apply Nat.leb_gt in Hk.
  unfold pooled_term. cbn [fst snd]. rewrite (bin_sj2_small xb Hk). ring.
Qed.

Lemma s2_defined (Ns : list nat) (sj2s : list Q) (M : nat) :
  (M < total Ns)%nat ->
  s2 Ns sj2s M =
  Some (pooled_numerator Ns sj2s / (Qnat (total Ns) - Qnat M)).
Proof.
  intro H. unfold s2.
  destruct (Qle_bool (Qnat (total Ns) - Qnat M) 0) eqn:E; [|reflexivity].
  apply Qle_bool_iff in E. exfalso.
  assert (L : Qnat (total Ns) <= Qnat M).
  { apply (Qplus_le_l _ _ (- Qnat M)). ring_simplify.
    setoid_replace (Qnat (total Ns) + -1 * Qnat M)
      with (Qnat (total Ns) - Qnat M) by ring.
    exact E. }
  unfold Qnat in L. rewrite <- Zle_Qle in L. lia.
Qed.

Lemma s2_undefined (Ns : list nat) (sj2s : list Q) (M : nat) :
  (total Ns <= M)%nat -> s2 Ns sj2s M = None.
Proof.
  intro H. unfold s2.
  assert (L : Qle_bool (Qnat (total Ns) - Qnat M) 0 = true).
  { apply Qle_bool_iff. apply (Qplus_le_l _ _ (Qnat M)). ring_simplify.
    now apply Qnat_le. }
  now rewrite L.
Qed.

Lemma occupied_all (Ns : list nat) :
  Forall (fun n => (1 <= n)%nat) Ns -> occupied Ns = length Ns.
Proof.
  unfold occupied. induction 1 as [|n r Hn _ IH]; [reflexivity|].
  cbn [filter]. apply Nat.leb_le in Hn. rewrite Hn.
  cbn [length]. now rewrite IH.
Qed.

Lemma occupied_le_total (Ns : list nat) : (occupied Ns <= total Ns)%nat.
Proof.
  unfold occupied, total. induction Ns as [|n r IH]; [simpl; lia|].
  cbn [filter fold_right]. destruct (1 <=? n)%nat eqn:E; cbn [length].
  - apply Nat.leb_le in E. lia.
  - lia.
Qed.

Lemma phi_valid (nbins : nat) (p : Q) (t : list Q) (x : list float)
  (xs : list Q) :
  finite_values x = Some xs -> (2 <= nbins)%nat -> 0 < p ->
  phi nbins p t x = Ok (phi_stat nbins (folded p t) xs).
Proof.
  intros Hx Hn Hp. unfold phi. rewrite Hx.
  destruct (nbins <? 2)%nat eqn:E; [apply Nat.ltb_lt in E; lia|].
  now rewrite (calc_phase_ok p t Hp).
Qed.

(** *** Every folded point lies in exactly one bin *)

Lemma floor_unique (x : Q) (k : Z) :
  inject_Z k <= x -> x < inject_Z (k + 1) -> Qfloor x = k.
Proof.
  intros L U.
  assert (A : (k <= Qfloor x)%Z).
  { rewrite <- (Qfloor_Z k). now apply Qfloor_resp_le. }
  assert (B : (Qfloor x < k + 1)%Z).
  { rewrite Zlt_Qlt. eapply Qle_lt_trans; [apply Qfloor_le|exact U]. }
  lia.
Qed.

Lemma bin_lower (n : nat) (a ph : Q) :
  (1 <= n)%nat -> (a / Qnat n <= ph <-> a <= ph * Qnat n).
Proof.
  intro Hn. pose proof (Qnat_pos n Hn) as P.
  rewrite <- (Qmult_le_r (a / Qnat n) ph (Qnat n) P).
  setoid_replace (a / Qnat n * Qnat n) with a; [reflexivity|].
  field. now apply Qnat_nonzero.
Qed.

Lemma bin_upper (n : nat) (a ph : Q) :
  (1 <= n)%nat -> (ph < a / Qnat n <-> ph * Qnat n < a).
Proof.
  intro Hn. pose proof (Qnat_pos n Hn) as P.
  rewrite <- (Qmult_lt_r ph (a / Qnat n) (Qnat n) P).
  setoid_replace (a / Qnat n * Qnat n) with a; [reflexivity|].
  field. now apply Qnat_nonzero.
Qed.

(** The bin of a phase is the integer part of [phase * nbins]. *)
Lemma in_bin_floor (nbins j : nat) (ph : Q) :
  (1 <= nbins)%nat ->
  in_bin nbins j ph = true <-> Qfloor (ph * Qnat nbins) = Z.of_nat j.
Proof.
  intro Hn. unfold in_bin.
  rewrite andb_true_iff, Qle_bool_iff, Qltb_lt.
  rewrite (bin_lower nbins _ ph Hn), (bin_upper nbins _ ph Hn).
  assert (ES : Qnat (S j) = inject_Z (Z.of_nat j + 1)).
  { unfold Qnat. f_equal. lia. }
  rewrite ES. unfold Qnat at 1. split.
  - intros [L U]. now apply floor_unique.
  - intro E. rewrite <- E. split; [apply Qfloor_le|apply Qlt_floor].
Qed.

Lemma filter_seq_single (f : nat -> bool) (n k : nat) :
  (k < n)%nat -> f k = true ->
  (forall i, (i < n)%nat -> i <> k -> f i = false) ->
  filter f (seq 0 n) = [k].
Proof.
  intros Hk Fk Hother.
  replace n with (k + S (n - S k))%nat by lia.
  rewrite seq_app, filter_app. cbn [seq filter plus]. rewrite Fk.
  rewrite !filter_none; [reflexivity| |].
  - intros i Hi. apply in_seq in Hi. apply Hother; lia.
  - intros i Hi. apply in_seq in Hi. apply Hother; lia.
Qed.

Lemma one_bin (nbins : nat) (ph : Q) :
  (1 <= nbins)%nat -> 0 <= ph -> ph < 1 ->
  exists k, (k < nbins)%nat /\
    filter (fun j => in_bin nbins j ph) (seq 0 nbins) = [k].
Proof.
  intros Hn L U.
  set (z := Qfloor (ph * Qnat nbins)).
  assert (Z0 : (0 <= z)%Z).
  { unfold z. rewrite <- (Qfloor_Z 0). apply Qfloor_resp_le.
    apply Qmult_le_0_compat; [exact L|].
    apply Qlt_le_weak. now apply Qnat_pos. }
  assert (Zn : (z < Z.of_nat nbins)%Z).
  { unfold z. rewrite Zlt_Qlt.
    eapply Qle_lt_trans; [apply Qfloor_le|].
    fold (Qnat nbins).
    setoid_replace (Qnat nbins) with (1 * Qnat nbins) at 2 by ring.
    apply Qmult_lt_r; [now apply Qnat_pos|exact U]. }
  exists (Z.to_nat z). split; [lia|].
  apply filter_seq_single.
  - lia.
  - apply in_bin_floor; [exact Hn|]. fold z. lia.
  - intros i Hi Ne. destruct (in_bin nbins i ph) eqn:E; [|reflexivity].
    apply in_bin_floor in E; [|exact Hn]. fold z in E. lia.
Qed.

Lemma total_add {A} (f g : A -> nat) (l : list A) :
  total (map (fun j => (f j + g j)%nat) l) =
  (total (map f l) + total (map g l))%nat.
Proof.
  unfold total. induction l as [|x r IH]; [reflexivity|].
  cbn [map fold_right]. rewrite IH. lia.
Qed.

Lemma total_indicator {A} (c : A -> bool) (l : list A) :
  total (map (fun j => if c j then 1%nat else 0%nat) l) =
  length (filter c l).
Proof.
  unfold total. induction l as [|x r IH]; [reflexivity|].
  cbn [map fold_right filter]. rewrite IH.
  destruct (c x); reflexivity.
Qed.

Lemma bins_cover (nbins : nat) (l : list (Q * Q)) :
  (1 <= nbins)%nat ->
  Forall (fun px => 0 <= fst px /\ fst px < 1) l ->
  total (map (fun j =>
                length (filter (fun px => in_bin nbins j (fst px)) l))
             (seq 0 nbins)) = length l.
Proof.
  intros Hn. induction 1 as [|px r [L U] _ IH].
  - cbn [filter length]. unfold total.
    induction (seq 0 nbins); [reflexivity|assumption].
  - rewrite (map_ext _
      (fun j => ((if in_bin nbins j (fst px) then 1 else 0) +
                 length (filter (fun qx => in_bin nbins j (fst qx)) r))%nat)).
    + rewrite total_add, IH, total_indicator.
      destruct (one_bin nbins (fst px) Hn L U) as [k [_ E]].
      rewrite E. reflexivity.
    + intro j. cbn [filter]. destruct (in_bin nbins j (fst px)); reflexivity.
Qed.

(** The bin counts of a folded light curve add up to its length. *)
Lemma bin_counts_total (nbins : nat) (p : Q) (t xs : list Q) :
  (1 <= nbins)%nat -> length t = length xs ->
  total (Ns (phase_bins nbins (folded p t) xs)) = length xs.
Proof.
  intros Hn Hlen. unfold phase_bins. cbn [Ns].
  rewrite !map_map.
  rewrite (map_ext _
    (fun j => length (filter (fun px => in_bin nbins j (fst px))
                        (combine (folded p t) xs)))).
  - rewrite bins_cover; [|exact Hn|].
    + rewrite length_combine. unfold folded. rewrite length_map. lia.
    + apply Forall_forall. intros [ph x] Hin. cbn [fst].
      apply in_combine_l in Hin. unfold folded in Hin.
      apply in_map_iff in Hin. destruct Hin as [ti [<- _]].
      apply frac_range.
  - intro j. unfold bin_points. apply length_map.
Qed.

End PDMFacts.

(** C8. For every time array and every period [p > 0], folding returns an
    array of the same length whose entry [i] is
    [((times[i] - times[0]) / p) mod 1]: it differs from
    [(times[i] - times[0]) / p] by an integer and lies in [0, 1). *)
Theorem calc_phase_fold (p : Q) (t : list Q) (Hp : 0 < p) :
  exists phases,
    PDM.calc_phase p t = Ok phases /\
    length phases = length t /\
    forall i, (i < length t)%nat ->
      let u := (nth i t 0 - nth 0 t 0) / p in
      nth i phases 0 = PDM.frac u /\
      nth i phases 0 == u - inject_Z (Qfloor u) /\
      0 <= nth i phases 0 /\ nth i phases 0 < 1.
Proof.
  eexists. split; [apply PDMFacts.calc_phase_ok; exact Hp|].
  split; [apply length_map|].
  intros i Hi u.
  assert (E : nth i (PDM.folded p t) 0 = PDM.frac u).
  { unfold PDM.folded. rewrite (nth_indep _ 0 (PDM.frac ((0 - hd 0 t) / p)))
      by (now rewrite length_map).
    rewrite (map_nth (fun ti => PDM.frac ((ti - hd 0 t) / p)) t 0 i).
    unfold u. destruct t; reflexivity. }
  rewrite E. split; [reflexivity|]. split; [reflexivity|].
  apply PDMFacts.frac_range.
Qed.

(** Times 3, 5, 12, 28 folded at period 10. *)
Lemma calc_phase_fold_witness :
  exists phases,
    PDM.calc_phase 10 [3; 5; 12; 28] = Ok phases /\
    length phases = 4%nat /\
    forall i, (i < 4)%nat ->
      let u := (nth i [3; 5; 12; 28] 0 - 3) / 10 in
      nth i phases 0 = PDM.frac u /\
      nth i phases 0 == u - inject_Z (Qfloor u) /\
      0 <= nth i phases 0 /\ nth i phases 0 < 1.
Proof.
  apply (calc_phase_fold 10 [3; 5; 12; 28]). reflexivity.
Defined.

(** C3. In the binned statistic each bin's [sj2] is the population
    (1/n_j) variance about the bin's own mean, a one-point bin has [sj2] 0,
    bins of fewer than two points add nothing to the pooled numerator, and
    the pooled variance is [sum_j (n_j - 1) sj2_j / (sum_j n_j - M)] with
    [M] the number of bins holding at least one point. *)
Theorem pooled_variance_normalisation (nbins : nat) (phase x : list Q) :
  let bs := PDM.phase_bins nbins phase x in
  let N := PDM.total (PDM.Ns bs) in
  let M := length (filter (fun n => (1 <=? n)%nat) (PDM.Ns bs)) in
  (forall j, (j < nbins)%nat ->
     let xb := nth j (PDM.x_binned bs) [] in
     let n := nth j (PDM.Ns bs) 0%nat in
     let m := nth j (PDM.x_means bs) 0 in
     let v := nth j (PDM.sj2s bs) 0 in
     n = length xb /\
     ((1 <= n)%nat ->
        m * Qnat n == Qsum xb /\
        v * Qnat n == Qsum (map (fun xi => (xi - m) * (xi - m)) xb)) /\
     (n = 1%nat -> v = 0) /\
     ((n < 2)%nat -> (Qnat n - 1) * v == 0)) /\
  PDM.pooled_numerator (PDM.Ns bs) (PDM.sj2s bs) ==
    Qsum (map (fun ns => (Qnat (fst ns) - 1) * snd ns)
            (filter (fun ns => (2 <=? fst ns)%nat)
                    (combine (PDM.Ns bs) (PDM.sj2s bs)))) /\
  ((M < N)%nat ->
     PDM.phi_stat nbins phase x =
     PDM.ratio
       (Some (Qsum (map (fun ns => (Qnat (fst ns) - 1) * snd ns)
                      (combine (PDM.Ns bs) (PDM.sj2s bs)))
              / (Qnat N - Qnat M)))
       (PDM.sj2 x (PDM.mean x) (length x))) /\
  ((N <= M)%nat -> PDM.phi_stat nbins phase x = None).
Proof.
  cbv zeta. split; [|split; [|split]].
  - intros j Hj.
    destruct (PDMFacts.binning_at nbins phase x j) as [En [Em Ev]].
    cbv zeta in En, Em, Ev. rewrite En, Em, Ev.
    set (xb := nth j (PDM.x_binned (PDM.phase_bins nbins phase x)) []).
    split; [reflexivity|]. split; [|split].
    + intro H1. split; [now apply PDMFacts.bin_mean_sum|].
      destruct (Nat.eq_dec (length xb) 1) as [E1|N1].
      * destruct xb as [|x0 [|x1 r]]; try discriminate E1.
        destruct (PDMFacts.bin_sj2_single x0) as [Z0 S0].
        rewrite Z0, S0. ring.
      * apply PDMFacts.bin_sj2_population. lia.
    + intro E1. apply PDMFacts.bin_sj2_small. lia.
    + intro L. rewrite (PDMFacts.bin_sj2_small xb L). ring.
  - apply PDMFacts.pooled_numerator_large_bins.
  - intro L. unfold PDM.phi_stat.
    change (length (filter (fun n => (1 <=? n)%nat)
                      (PDM.Ns (PDM.phase_bins nbins phase x))))
      with (PDM.occupied (PDM.Ns (PDM.phase_bins nbins phase x))) in *.
    now rewrite (PDMFacts.s2_defined _ _ _ L).
  - intro L. unfold PDM.phi_stat.
    change (length (filter (fun n => (1 <=? n)%nat)
                      (PDM.Ns (PDM.phase_bins nbins phase x))))
      with (PDM.occupied (PDM.Ns (PDM.phase_bins nbins phase x))) in *.
    now rewrite (PDMFacts.s2_undefined _ _ _ L).
Qed.

(** Four points in two bins of two: both bins have variance 1, the pooled
    variance is 1 and the statistic is 4/5. *)
Lemma pooled_variance_normalisation_witness :
  PDM.phi_stat 2 [0; 1 # 2; 1 # 5; 1 # 2] [1; 2; 3; 4] =
  PDM.ratio
    (Some (Qsum (map (fun ns => (Qnat (fst ns) - 1) * snd ns)
                   (combine [2%nat; 2%nat] [32 # 32; 32 # 32]))
           / (Qnat 4 - Qnat 2)))
    (PDM.sj2 [1; 2; 3; 4] (PDM.mean [1; 2; 3; 4]) 4).
Proof.
  apply (pooled_variance_normalisation 2 [0; 1 # 2; 1 # 5; 1 # 2]
           [1; 2; 3; 4]).
  vm_compute. lia.
Defined.

(** The statistic of section 4.3 and the ratio of the regression test,
    side by side.  They pool with different bin counts, the number of
    occupied bins and [nbins], so they can only be told apart on a fold
    that leaves a bin empty: with two bins, period 1 and three points whose
    phases all fall in the first bin, [phi] is 1 while the ratio taken with
    [nbins] as the bin count is 2. *)
Lemma phi_differs_with_empty_bin :
  match PDM.phi 2 1 [0; 1 # 4; 1 # 8] [Fin 1; Fin 2; Fin 4],
        PDM.binned_ratio 2 1 [0; 1 # 4; 1 # 8] [1; 2; 4] with
  | Ok (Some u), Ok (Some v) => u == 1 /\ v == 2
  | _, _ => False
  end.
Proof. vm_compute. split; reflexivity. Qed.

(** On a fold that leaves no bin empty the two agree: the number of
    occupied bins is then [nbins].  This is the situation of the regression
    test, 1000 points in 10 bins. *)
Lemma phi_agrees_on_occupied_bins (nbins : nat) (p : Q) (t : list Q)
  (x : list Num.float) (xs : list Q) :
  finite_values x = Some xs -> (2 <= nbins)%nat -> 0 < p ->
  Forall (fun n => (1 <= n)%nat)
         (PDM.Ns (PDM.phase_bins nbins (PDM.folded p t) xs)) ->
  PDM.phi nbins p t x = PDM.binned_ratio nbins p t xs.
Proof.
  intros Hx Hn Hp Hocc.
  rewrite (PDMFacts.phi_valid nbins p t x xs Hx Hn Hp).
  unfold PDM.binned_ratio.
  rewrite (PDMFacts.calc_phase_ok p t Hp). cbn [bind].
  unfold PDM.phi_stat. rewrite (PDMFacts.occupied_all _ Hocc).
  destruct (PDMFacts.binning_lengths nbins (PDM.folded p t) xs) as [L _].
  cbv zeta in L. now rewrite L.
Qed.

(** ** Facts about loops and [argmin] *)

Module LoopFacts.

Lemma mapM_ok {A B} (f : A -> result B) (g : A -> B) (l : list A) :
  (forall x, In x l -> f x = Ok (g x)) -> mapM f l = Ok (map g l).
Proof.
  induction l as [|x r IH]; intro H; [reflexivity|].
  simpl. rewrite (H x (or_introl eq_refl)). simpl.
  rewrite IH; [reflexivity|]. intros y Hy. apply H. now right.
Qed.


Lemma argminQ_lt (l : list Q) : l <> [] -> (argminQ l < length l)%nat.
Proof.
  induction l as [|x r IH]; intro H; [congruence|].
  destruct r as [|y r']; [simpl; lia|].
  change (argminQ (x :: y :: r')) with
    (if Qle_bool x (nth (argminQ (y :: r')) (y :: r') 0)
     then 0%nat else S (argminQ (y :: r'))).
  destruct (Qle_bool x _).
  - simpl. lia.
  - specialize (IH ltac:(discriminate)). simpl in *. lia.
Qed.

(** The entry at [argminQ] is a least entry, and strictly below every
    earlier one. *)
Lemma argminQ_least (l : list Q) :
  forall j, (j < length l)%nat ->
    nth (argminQ l) l 0 <= nth j l 0 /\
    ((j < argminQ l)%nat -> nth (argminQ l) l 0 < nth j l 0).
Proof.
  induction l as [|x r IH]; intros j Hj; [simpl in Hj; lia|].
  destruct r as [|y r'].
  - simpl in Hj. assert (j = 0%nat) by lia. subst j. simpl.
    split; [apply Qle_refl|lia].
  - change (argminQ (x :: y :: r')) with
      (if Qle_bool x (nth (argminQ (y :: r')) (y :: r') 0)
       then 0%nat else S (argminQ (y :: r'))).
    destruct (Qle_bool x (nth (argminQ (y :: r')) (y :: r') 0)) eqn:E.
    + split; [|lia]. destruct j as [|j]; [apply Qle_refl|].
      apply Qle_bool_iff in E.
      apply Qle_trans with (nth (argminQ (y :: r')) (y :: r') 0);
        [exact E|].
      apply IH. simpl in *. lia.
    + apply Qle_bool_false in E.
      change (nth (S (argminQ (y :: r'))) (x :: y :: r') 0)
        with (nth (argminQ (y :: r')) (y :: r') 0).
      destruct j as [|j].
      * split; [apply Qlt_le_weak; exact E|]. intros _. exact E.
      * change (nth (S j) (x :: y :: r') 0) with (nth j (y :: r') 0).
        destruct (IH j ltac:(simpl in *; lia)) as [L F].
        split; [exact L|]. intro H. apply F. lia.
Qed.

Lemma first_undefined_spec (l : list (option Q)) (i : nat) :
  first_undefined l = Some i ->
  nth_error l i = Some None /\
  forall j, (j < i)%nat -> exists q, nth_error l j = Some (Some q).
Proof.
  revert i. induction l as [|o r IH]; intros i H; [discriminate|].
  simpl in H. destruct o as [q|].
  - destruct (first_undefined r) as [k|]; [|discriminate].
    inversion H; subst. destruct (IH k eq_refl) as [E F].
    split; [exact E|]. intros j Hj. destruct j as [|j].
    + now exists q.
    + apply F. lia.
  - inversion H; subst. split; [reflexivity|]. intros j Hj. lia.
Qed.

Lemma first_undefined_none (l : list (option Q)) :
  first_undefined l = None <-> Forall (fun o => o <> None) l.
Proof.
  induction l as [|o r IH]; simpl.
  - split; [constructor|reflexivity].
  - destruct o as [q|].
    + destruct (first_undefined r); simpl.
      * split; [discriminate|]. intro H. inversion H; subst.
        apply IH in H3. discriminate.
      * split; [|reflexivity]. intros _. constructor; [discriminate|].
        now apply IH.
    + split; [discriminate|]. intro H. inversion H; subst. congruence.
Qed.

Lemma values_defined (l : list (option Q)) (j : nat) (q : Q) :
  nth_error l j = Some (Some q) -> nth j (values l) 0 = q.
Proof.
  revert j. induction l as [|o r IH]; intros j H.
  - destruct j; discriminate.
  - destruct j as [|j]; simpl in *.
    + now inversion H.
    + now apply IH.
Qed.

Lemma defined_at (l : list (option Q)) (j : nat) :
  Forall (fun o => o <> None) l -> (j < length l)%nat ->
  exists q, nth_error l j = Some (Some q).
Proof.
  intros F Hj. destruct (nth_error l j) as [o|] eqn:E.
  - destruct o as [q|]; [now exists q|].
    apply nth_error_In in E. rewrite Forall_forall in F.
    now destruct (F _ E).
  - apply nth_error_None in E. lia.
Qed.

(** [argmin] on a non-empty profile returns an index inside it: that of
    the first undefined entry, or, when all are defined, of the first
    least entry. *)
Lemma argmin_spec (l : list (option Q)) :
  l <> [] ->
  exists i,
    argmin l = Ok i /\ (i < length l)%nat /\
    (nth_error l i = Some None \/
     exists q, nth_error l i = Some (Some q) /\
       Forall (fun o => o <> None) l /\
       forall j qj, nth_error l j = Some (Some qj) ->
         q <= qj /\ ((j < i)%nat -> q < qj)).
Proof.
  intro H. destruct l as [|o r]; [congruence|].
  unfold argmin. destruct (first_undefined (o :: r)) as [i|] eqn:E.
  - exists i. destruct (first_undefined_spec _ _ E) as [U _].
    split; [reflexivity|]. split.
    + apply nth_error_Some. congruence.
    + now left.
  - apply first_undefined_none in E.
    set (l := o :: r) in *. exists (argminQ (values l)).
    assert (Lv : length (values l) = length l) by apply length_map.
    assert (B : (argminQ (values l) < length l)%nat).
    { rewrite <- Lv. apply argminQ_lt. unfold l. discriminate. }
    split; [reflexivity|]. split; [exact B|]. right.
    destruct (defined_at l _ E B) as [q Hq]. exists q.
    split; [exact Hq|]. split; [exact E|].
    intros j qj Hj.
    assert (Bj : (j < length l)%nat) by (apply nth_error_Some; congruence).
    destruct (argminQ_least (values l) j ltac:(lia)) as [L F].
    rewrite (values_defined l _ q Hq), (values_defined l j qj Hj) in L, F.
    split; assumption.
Qed.

End LoopFacts.

(** ** The phase-dispersion method *)

Module PDMRun.
Import Rotation.

Section Methods.

Variable curve_fit :
  list Q -> list (option Q) -> Q -> option (Q * Q * Q * Q).

Lemma profile_loop (nbins : nat) (grid t : list Q) (x : list float)
  (xs : list Q) :
  finite_values x = Some xs -> (2 <= nbins)%nat ->
  Forall (fun p => 0 < p) grid ->
  mapM (fun p => PDM.phi nbins p t x) grid =
  Ok (PDM.profile nbins grid t xs).
Proof.
  intros Hx Hn Hg. unfold PDM.profile. apply LoopFacts.mapM_ok.
  intros p Hp. rewrite Forall_forall in Hg.
  now apply PDMFacts.phi_valid; [| |apply Hg].
Qed.

(** On valid input [pdm_rotation] runs to its last statement and returns
    the grid point at [argmin] of the profile with the error reported by
    [estimate_uncertainty]. *)
Lemma pdm_rotation_run (grid : list Q) (nbins : nat) (s : RotationModel)
  (xs : list Q) :
  finite_values (flux s) = Some xs -> (2 <= nbins)%nat ->
  Forall (fun p => 0 < p) grid -> grid <> [] ->
  let phis := PDM.profile nbins grid (time s) xs in
  exists ind best,
    argmin phis = Ok ind /\ nth_error grid ind = Some best /\
    pdm_rotation curve_fit grid nbins s =
    (pdm_state curve_fit grid nbins phis best s,
     Ok (best,
         reported_error
           (PDM.estimate_uncertainty curve_fit grid phis best))).
Proof.
  intros Hx Hn Hg Hne phis.
  assert (Lp : length phis = length grid) by apply length_map.
  destruct (LoopFacts.argmin_spec phis) as [ind [Ea [Bi _]]].
  { intro E. apply Hne. destruct grid; [reflexivity|discriminate]. }
  destruct (nth_error grid ind) as [best|] eqn:Eb;
    [|apply nth_error_None in Eb; lia].
  exists ind, best. split; [exact Ea|]. split; [exact Eb|].
  assert (Pb : 0 < best).
  { rewrite Forall_forall in Hg. apply Hg. eapply nth_error_In; eassumption. }
  unfold pdm_rotation, pdm_state.
  unfold seqM at 1. unfold assign at 1.
  unfold seqM at 1. unfold assign at 1.
  unfold seqM at 1. unfold self at 1.
  unfold seqM at 1. unfold lift at 1.
  cbn [time flux set_pdm_nbins set_period_grid].
  rewrite (profile_loop nbins grid (time s) (flux s) xs Hx Hn Hg).
  fold phis.
  unfold seqM at 1. unfold assign at 1.
  unfold seqM at 1. unfold lift at 1. rewrite Ea.
  unfold seqM at 1. unfold lift at 1. unfold index. rewrite Eb.
  unfold seqM at 1. unfold assign at 1.
  destruct (PDM.estimate_uncertainty curve_fit grid phis best)
    as [[[err mu0] a0] b0].
  unfold seqM, assign, lift, ret.
  rewrite (PDMFacts.calc_phase_ok best (time s) Pb).
  reflexivity.
Qed.


End Methods.

End PDMRun.

(** ** Facts about ranking by height *)

Module RankFacts.
Import Peaks.








End RankFacts.

(** ** The autocorrelation method *)

Module ACF.
Import Rotation.








Section Methods.

Variable simple_acf :
  list Q -> list float -> Q -> Q -> nat -> nat ->
  list Q * list Q * list Q * list Q.

(** What [acf_rotation] does once the autocorrelation curve is known. *)
Lemma acf_rotation_run interval smooth cutoff wl po s lags acf _x _y :
  simple_acf (time s) (flux s) (cadence interval) smooth wl po =
    (lags, acf, _x, _y) ->
  length lags = length acf ->
  let masked := above_cutoff cutoff lags acf in
  let xs := map fst masked in
  let ys := map snd masked in
  acf_rotation simple_acf interval smooth cutoff wl po s =
  match fst (Peaks.get_peak_statistics xs ys Peaks.Height) with
  | [] => (acf_state _x _y xs ys s, Raise IndexError)
  | p :: _ => (set_acf_period p (acf_state _x _y xs ys s), Ok p)
  end.
Proof.
  intros E L. cbv zeta. unfold acf_rotation.
  unfold seqM at 1. unfold self at 1. rewrite E.
  apply Nat.eqb_eq in L. rewrite L.
  destruct (Peaks.get_peak_statistics
              (map fst (above_cutoff cutoff lags acf))
              (map snd (above_cutoff cutoff lags acf)) Peaks.Height)
    as [xpeaks ypeaks].
  cbn [fst]. destruct xpeaks as [|p r]; reflexivity.
Qed.

End Methods.

(** Peaks of height 5 at lag 2 and of height 8 at lag 4: the period is 4. *)
Example acf_rotation_two_peaks :
  snd (acf_rotation
         (fun _ _ _ _ _ _ =>
            ([0; 1; 2; 3; 4; 5; 6], [10; 3; 5; 2; 8; 1; 0], [], []))
         Kepler 9 0 99 3
         (fresh [0; 1; 2] [Fin 1; Fin 2; Fin 3] [Fin 0; Fin 0; Fin 0]
            (Fin 2))) = Ok 4.
Proof. reflexivity. Qed.

(** The first sample above the cutoff is an end point of the masked curve:
    with cutoff 1 the sample at lag 2 is not a candidate, although it is the
    tallest local maximum of the whole curve, and the period is 4. *)
Example acf_rotation_first_sample :
  snd (acf_rotation
         (fun _ _ _ _ _ _ =>
            ([0; 1; 2; 3; 4; 5], [1; 0; 5; 1; 2; 1], [], []))
         Kepler 9 1 99 3
         (fresh [0; 1; 2] [Fin 1; Fin 2; Fin 3] [Fin 0; Fin 0; Fin 0]
            (Fin 2))) = Ok 4.
Proof. reflexivity. Qed.

End ACF.



(** C1 as stated fails: on a six-point light curve searched over the grid
    2, 3 with two bins, with a converged fit of mean 9/4 and sigma -1/4,
    the returned period is the grid point 2, not the fitted mean, which is
    only stored in [mu]. *)
Lemma pdm_rotation_period_is_not_fitted_mean :
  let run :=
    Rotation.pdm_rotation
      (fun _ _ _ => Some (- (1), 1, 9 # 4, - (1 # 4))) [2; 3] 2
      (Rotation.fresh [0; 1; 2; 3; 4; 5]
         [Fin 1; Fin 2; Fin 1; Fin 2; Fin 1; Fin 2]
         [Fin 0; Fin 0; Fin 0; Fin 0; Fin 0; Fin 0] (Fin 1)) in
  Rotation.mu (fst run) = Some (9 # 4) /\
  match snd run with
  | Ok (period, err) => period == 2 /\ ~ period == 9 # 4
  | Raise _ => False
  end.
Proof.
  vm_compute. split; [reflexivity|]. split; [reflexivity|]. discriminate.
Qed.

(** C1, amended. For every light curve with finite flux, [nbins >= 2] and a
    non-empty strictly-positive period grid, [pdm_rotation] returns the grid
    point at the argmin of the dispersion profile (a least value of the
    profile when every entry is defined); when the Gaussian fit converges
    with mean [mu] and width [sigma], the returned symmetric uncertainty is
    [|sigma|], and [mu] is stored in the attribute [mu], not returned. *)
Theorem pdm_rotation_reports_grid_minimum
  (curve_fit : list Q -> list (option Q) -> Q -> option (Q * Q * Q * Q))
  (grid : list Q) (nbins : nat) (s : Rotation.RotationModel) (xs : list Q)
  (Hx : finite_values (Rotation.flux s) = Some xs)
  (Hn : (2 <= nbins)%nat)
  (Hg : Forall (fun p => 0 < p) grid)
  (Hne : grid <> []) :
  let phis := PDM.profile nbins grid (Rotation.time s) xs in
  let run := Rotation.pdm_rotation curve_fit grid nbins s in
  exists ind best err,
    argmin phis = Ok ind /\ nth_error grid ind = Some best /\
    snd run = Ok (best, err) /\
    Rotation.pdm_period (fst run) = Some best /\
    (Forall (fun o => o <> None) phis ->
     exists q, nth_error phis ind = Some (Some q) /\
       forall j qj, nth_error phis j = Some (Some qj) -> q <= qj) /\
    (forall a b mu sigma,
       curve_fit grid phis best = Some (a, b, mu, sigma) ->
       err = Fin (Qabs sigma) /\
       Rotation.mu (fst run) = Some mu /\
       Rotation.sigma (fst run) = Some (Fin (Qabs sigma)) /\
       Rotation.period_err (fst run) = Some (Fin (Qabs sigma))).
Proof.
  cbv zeta.
  destruct (PDMRun.pdm_rotation_run curve_fit grid nbins s xs Hx Hn Hg Hne)
    as [ind [best [Ea [Eb Erun]]]].
  cbv zeta in Ea, Erun. rewrite Erun. cbn [fst snd].
  set (phis := PDM.profile nbins grid (Rotation.time s) xs) in *.
  exists ind, best,
    (Rotation.reported_error
       (PDM.estimate_uncertainty curve_fit grid phis best)).
  split; [exact Ea|]. split; [exact Eb|]. split; [reflexivity|].
  split; [|split].
  - unfold Rotation.pdm_state.
    destruct (PDM.estimate_uncertainty curve_fit grid phis best)
      as [[[e m] a0] b0]. reflexivity.
  - intro Hdef.
    destruct (LoopFacts.argmin_spec phis) as [i [Ea' [_ [U|D]]]].
    { unfold phis, PDM.profile. destruct grid; [congruence|discriminate]. }
    + rewrite Ea in Ea'. injection Ea' as <-.
      apply nth_error_In in U. rewrite Forall_forall in Hdef.
      now destruct (Hdef _ U).
    + rewrite Ea in Ea'. injection Ea' as <-.
      destruct D as [q [Hq [_ Hmin]]]. exists q. split; [exact Hq|].
      intros j qj Hj. now destruct (Hmin j qj Hj).
  - intros a0 b0 mu0 sigma0 Hfit.
    unfold Rotation.pdm_state, PDM.estimate_uncertainty.
    rewrite Hfit. repeat split.
Qed.

(** The light curve and grid of the failing instance: the call returns the
    grid point 2 with uncertainty 1/4. *)
Lemma pdm_rotation_reports_grid_minimum_witness :
  snd (Rotation.pdm_rotation
         (fun _ _ _ => Some (- (1), 1, 9 # 4, - (1 # 4))) [2; 3] 2
         (Rotation.fresh [0; 1; 2; 3; 4; 5]
            [Fin 1; Fin 2; Fin 1; Fin 2; Fin 1; Fin 2]
            [Fin 0; Fin 0; Fin 0; Fin 0; Fin 0; Fin 0] (Fin 1))) =
  Ok (2, Fin (Qabs (- (1 # 4)))).
Proof.
  destruct (pdm_rotation_reports_grid_minimum
              (fun _ _ _ => Some (- (1), 1, 9 # 4, - (1 # 4))) [2; 3] 2
              (Rotation.fresh [0; 1; 2; 3; 4; 5]
                 [Fin 1; Fin 2; Fin 1; Fin 2; Fin 1; Fin 2]
                 [Fin 0; Fin 0; Fin 0; Fin 0; Fin 0; Fin 0] (Fin 1))
              [1; 2; 1; 2; 1; 2] eq_refl ltac:(lia)
              ltac:(repeat constructor) ltac:(discriminate))
    as [ind [best [err [Ea [Eb [Er [_ [_ Hfit]]]]]]]].
  rewrite Er. vm_compute in Ea. injection Ea as <-.
  injection Eb as <-.
  destruct (Hfit (- (1)) 1 (9 # 4) (- (1 # 4)) eq_refl) as [-> _].
  reflexivity.
Defined.




(** C7 as stated fails: on a periodogram without a peak [ls_rotation]
    reports the period 0, a numeric zero, and on an autocorrelation curve
    without a peak above the cutoff [acf_rotation] raises. *)
Lemma no_peak_is_zero_or_raises :
  let s := Rotation.fresh [0; 1; 2] [Fin 1; Fin 2; Fin 3]
             [Fin 0; Fin 0; Fin 0] (Fin 2) in
  snd (Rotation.ls_rotation (fun _ _ f => f) false (1 # 2) 50 50
         (Some [1; 2; 3; 4]) (Some [0; 0; 0; 0]) None s) = Ok (Fin 0) /\
  snd (Rotation.acf_rotation
         (fun _ _ _ _ _ _ => ([0; 1; 2; 3; 4], [5; 4; 3; 2; 1], [], []))
         Rotation.Kepler 9 0 99 3 s) = Raise IndexError.
Proof. vm_compute. split; reflexivity. Qed.

(** C7, amended. When [ls_rotation] finds no peak it returns and stores the
    period 0 without raising; when the pooled-variance denominator
    [sum_j n_j - M] is not positive at a trial period, [phi] returns the
    undefined value, which is not a number; and on valid input
    [pdm_rotation] runs to the end with a profile that has one entry per
    grid point, each the value [phi] returns there, undefined entries
    included. *)
Theorem degenerate_results_are_not_fatal
  (LombScargle_power : list Q -> list Num.float -> Q -> Q)
  (curve_fit : list Q -> list (option Q) -> Q -> option (Q * Q * Q * Q))
  (s : Rotation.RotationModel) :
  (forall hp lo hi spp ifr ipw,
     Rotation.grid_defined lo hi ifr ipw ->
     forallb isfinite (Rotation.flux s) = true ->
     let s1 := Rotation.with_grid lo hi ifr ipw s in
     let fr := match Rotation.freq s1 with Some f => f | None => [] end in
     Peaks.peaks
       (map (LombScargle_power (Rotation.time s) (Rotation.flux s)) fr)
       = [] ->
     let run :=
       Rotation.ls_rotation LombScargle_power hp lo hi spp ifr ipw None s in
     snd run = Ok (Fin 0) /\
     Rotation.ls_period (fst run) = Some (Fin 0)) /\
  (forall nbins p t x xs,
     finite_values x = Some xs -> (2 <= nbins)%nat -> 0 < p ->
     let bs := PDM.phase_bins nbins (PDM.folded p t) xs in
     (PDM.total (PDM.Ns bs) <= PDM.occupied (PDM.Ns bs))%nat ->
     PDM.phi nbins p t x = Ok None /\
     forall q, PDM.phi nbins p t x <> Ok (Some q)) /\
  (forall grid nbins xs,
     finite_values (Rotation.flux s) = Some xs -> (2 <= nbins)%nat ->
     Forall (fun p => 0 < p) grid -> grid <> [] ->
     let run := Rotation.pdm_rotation curve_fit grid nbins s in
     exists phis r,
       snd run = Ok r /\
       Rotation.phis (fst run) = Some phis /\
       length phis = length grid /\
       forall i p, nth_error grid i = Some p ->
         exists v,
           PDM.phi nbins p (Rotation.time s) (Rotation.flux s) = Ok v /\
           nth_error phis i = Some v).
Proof.
  split; [|split].
  - intros hp lo hi spp ifr ipw G F s1 fr Hnone run.
    unfold run.
    rewrite (LS.ls_rotation_computed LombScargle_power hp lo hi spp ifr ipw
               s G F).
    fold s1. fold fr. rewrite Hnone. split; reflexivity.
  - intros nbins p t x xs Hx Hn Hp bs Hden.
    rewrite (PDMFacts.phi_valid nbins p t x xs Hx Hn Hp).
    unfold PDM.phi_stat. fold bs.
    rewrite (PDMFacts.s2_undefined _ _ _ Hden). cbn [PDM.ratio].
    split; [reflexivity|]. intros q H. discriminate H.
  - intros grid nbins xs Hx Hn Hg Hne run.
    destruct (PDMRun.pdm_rotation_run curve_fit grid nbins s xs Hx Hn Hg Hne)
      as [ind [best [Ea [Eb Erun]]]].
    cbv zeta in Ea, Erun. unfold run. rewrite Erun. cbn [fst snd].
    set (phis := PDM.profile nbins grid (Rotation.time s) xs) in *.
    exists phis. eexists. split; [reflexivity|]. split; [|split].
    + unfold Rotation.pdm_state.
      destruct (PDM.estimate_uncertainty curve_fit grid phis best)
        as [[[e m] a0] b0]. reflexivity.
    + apply length_map.
    + intros i p Hi. rewrite Forall_forall in Hg.
      exists (PDM.phi_stat nbins (PDM.folded p (Rotation.time s)) xs).
      split.
      * apply PDMFacts.phi_valid; try assumption.
        apply Hg. eapply nth_error_In; eassumption.
      * unfold phis, PDM.profile. rewrite nth_error_map, Hi. reflexivity.
Qed.

(** Two points in two bins, one each: the denominator is 2 - 2 = 0 and the
    statistic is undefined; a grid holding that period is still searched to
    the end. *)
Lemma degenerate_results_are_not_fatal_witness :
  let s := Rotation.fresh [0; 1 # 2] [Fin 1; Fin 2] [Fin 0; Fin 0] (Fin 1) in
  PDM.phi 2 1 [0; 1 # 2] [Fin 1; Fin 2] = Ok None /\
  exists phis r,
    snd (Rotation.pdm_rotation (fun _ _ _ => None) [1; 3] 2 s) = Ok r /\
    Rotation.phis (fst (Rotation.pdm_rotation (fun _ _ _ => None) [1; 3] 2 s))
      = Some phis /\
    length phis = 2%nat.
Proof.
  cbv zeta.
  destruct (degenerate_results_are_not_fatal (fun _ _ f => f)
              (fun _ _ _ => None)
              (Rotation.fresh [0; 1 # 2] [Fin 1; Fin 2] [Fin 0; Fin 0]
                 (Fin 1)))
    as [_ [Hphi Hpdm]].
  split.
  - apply (Hphi 2%nat 1 [0; 1 # 2] [Fin 1; Fin 2] [1; 2] eq_refl
             ltac:(lia) eq_refl).
    vm_compute. lia.
  - destruct (Hpdm [1; 3] 2%nat [1; 2] eq_refl ltac:(lia)
                ltac:(repeat constructor) ltac:(discriminate))
      as [phis [r [E1 [E2 [E3 _]]]]].
    exists phis, r. split; [exact E1|]. split; [exact E2|exact E3].
Defined.

(** * Part III: further properties of the methods *)

(** ** Attribute groups do not interfere *)

Module Groups.
Import Rotation.

Section View.

Context {B : Type} (view : RotationModel -> B).

Lemma keeps_ret {A} (x : A) : keeps view (ret x).
Proof. intro s. reflexivity. Qed.

Lemma keeps_raise {A} (e : exn) : keeps view (@raise A e).
Proof. intro s. reflexivity. Qed.

Lemma keeps_lift {A} (r : result A) : keeps view (lift r).
Proof. intro s. reflexivity. Qed.

Lemma keeps_self : keeps view self.
Proof. intro s. reflexivity. Qed.

Lemma keeps_assert (c : bool) : keeps view (assert_ c).
Proof. destruct c; [apply keeps_ret|apply keeps_raise]. Qed.

Lemma keeps_assign (f : RotationModel -> RotationModel) :
  (forall s, view (f s) = view s) -> keeps view (assign f).
Proof. intros H s. apply H. Qed.

Lemma keeps_seqM {A C} (m : M A) (k : A -> M C) :
  keeps view m -> (forall x, keeps view (k x)) -> keeps view (seqM m k).
Proof.
  intros Hm Hk s. unfold seqM. specialize (Hm s).
  destruct (m s) as [s' [x|e]]; simpl in *.
  - rewrite <- Hm. apply Hk.
  - exact Hm.
Qed.

End View.

Ltac keeps_step :=
  match goal with
  | |- keeps _ (seqM _ _) => apply keeps_seqM; [|intro]
  | |- keeps _ (assign _) => apply keeps_assign; intro; reflexivity
  | |- keeps _ (ret _) => apply keeps_ret
  | |- keeps _ (raise _) => apply keeps_raise
  | |- keeps _ (lift _) => apply keeps_lift
  | |- keeps _ self => apply keeps_self
  | |- keeps _ (assert_ _) => apply keeps_assert
  | |- keeps _ (match ?x with _ => _ end) => destruct x
  | |- keeps _ (let '(_, _) := ?x in _) => destruct x
  end.

Section Methods.

Variable LombScargle_power : list Q -> list float -> Q -> Q.
Variable simple_acf :
  list Q -> list float -> Q -> Q -> nat -> nat ->
  list Q * list Q * list Q * list Q.
Variable curve_fit :
  list Q -> list (option Q) -> Q -> option (Q * Q * Q * Q).

Lemma ls_rotation_keeps hp lo hi spp ifr ipw ilp :
  keeps (fun s => (acf_attrs s, pdm_attrs s, Rvar s))
        (ls_rotation LombScargle_power hp lo hi spp ifr ipw ilp).
Proof. unfold ls_rotation. repeat keeps_step. Qed.

Lemma acf_rotation_keeps interval smooth cutoff wl po :
  keeps (fun s => (ls_attrs s, pdm_attrs s, Rvar s))
        (acf_rotation simple_acf interval smooth cutoff wl po).
Proof. unfold acf_rotation. repeat keeps_step. Qed.

Lemma pdm_rotation_keeps grid nbins :
  keeps (fun s => (ls_attrs s, acf_attrs s, Rvar s))
        (pdm_rotation curve_fit grid nbins).
Proof. unfold pdm_rotation. repeat keeps_step. Qed.

End Methods.

End Groups.

(** X1. Each method writes only its own attributes: [ls_rotation] leaves the
    autocorrelation and phase-dispersion attributes and [Rvar] as they
    were, [acf_rotation] leaves the Lomb-Scargle and phase-dispersion
    attributes and [Rvar], and [pdm_rotation] leaves the Lomb-Scargle and
    autocorrelation attributes and [Rvar], whether the call returns or
    raises. *)
Theorem methods_do_not_interfere
  (LombScargle_power : list Q -> list Num.float -> Q -> Q)
  (simple_acf : list Q -> list Num.float -> Q -> Q -> nat -> nat ->
                list Q * list Q * list Q * list Q)
  (curve_fit : list Q -> list (option Q) -> Q -> option (Q * Q * Q * Q))
  (s : Rotation.RotationModel) :
  (forall hp lo hi spp ifr ipw ilp,
     let s' := fst (Rotation.ls_rotation LombScargle_power hp lo hi spp ifr
                      ipw ilp s) in
     Rotation.acf_attrs s' = Rotation.acf_attrs s /\
     Rotation.pdm_attrs s' = Rotation.pdm_attrs s /\
     Rotation.Rvar s' = Rotation.Rvar s) /\
  (forall interval smooth cutoff wl po,
     let s' := fst (Rotation.acf_rotation simple_acf interval smooth cutoff
                      wl po s) in
     Rotation.ls_attrs s' = Rotation.ls_attrs s /\
     Rotation.pdm_attrs s' = Rotation.pdm_attrs s /\
     Rotation.Rvar s' = Rotation.Rvar s) /\
  (forall grid nbins,
     let s' := fst (Rotation.pdm_rotation curve_fit grid nbins s) in
     Rotation.ls_attrs s' = Rotation.ls_attrs s /\
     Rotation.acf_attrs s' = Rotation.acf_attrs s /\
     Rotation.Rvar s' = Rotation.Rvar s).
Proof.
  split; [|split]; intros; cbv zeta.
  - pose proof (Groups.ls_rotation_keeps LombScargle_power hp lo hi spp ifr
                  ipw ilp s) as H.
    cbv beta in H. split; [|split].
    + exact (f_equal (fun t => fst (fst t)) H).
    + exact (f_equal (fun t => snd (fst t)) H).
    + exact (f_equal snd H).
  - pose proof (Groups.acf_rotation_keeps simple_acf interval smooth cutoff
                  wl po s) as H.
    cbv beta in H. split; [|split].
    + exact (f_equal (fun t => fst (fst t)) H).
    + exact (f_equal (fun t => snd (fst t)) H).
    + exact (f_equal snd H).
  - pose proof (Groups.pdm_rotation_keeps curve_fit grid nbins s) as H.
    cbv beta in H. split; [|split].
    + exact (f_equal (fun t => fst (fst t)) H).
    + exact (f_equal (fun t => snd (fst t)) H).
    + exact (f_equal snd H).
Qed.

(** ** More on the Lomb-Scargle method *)

Module LSFacts.
Import Rotation.

(** The running maximum of [max] is an element and an upper bound. *)
Lemma running_max (vs : list Q) (v : Q) :
  let m := fold_left (fun m w => if Qltb m w then w else m) vs v in
  In m (v :: vs) /\ forall w, In w (v :: vs) -> w <= m.
Proof.
  revert v. induction vs as [|x r IH]; intro v; cbv zeta.
  - simpl. split; [now left|]. intros w [<-|[]]. apply Qle_refl.
  - cbn [fold_left]. destruct (Qltb v x) eqn:E.
    + destruct (IH x) as [I1 I2]. split; [right; exact I1|].
      intros w [<-|Hw]; [|now apply I2].
      apply Qltb_lt in E. apply Qlt_le_weak.
      eapply Qlt_le_trans; [exact E|]. apply I2. now left.
    + destruct (IH v) as [I1 I2]. split.
      * destruct I1 as [I1|I1]; [now left|right; right; exact I1].
      * intros w [<-|[<-|Hw]].
        -- apply I2. now left.
        -- apply Qltb_ge in E. eapply Qle_trans; [exact E|].
           apply I2. now left.
        -- apply I2. now right.
Qed.

Lemma max_at_spec (pw : list Q) (k : nat) (ks : list nat) :
  (exists j, In j (k :: ks) /\ max_at pw (k :: ks) = Peaks.at_ pw j) /\
  forall j, In j (k :: ks) -> Peaks.at_ pw j <= max_at pw (k :: ks).
Proof.
  unfold max_at. cbn [map].
  destruct (running_max (map (Peaks.at_ pw) ks) (Peaks.at_ pw k))
    as [I1 I2].
  cbv zeta in I1, I2. split.
  - change (Peaks.at_ pw k :: map (Peaks.at_ pw) ks)
      with (map (Peaks.at_ pw) (k :: ks)) in I1.
    apply in_map_iff in I1. destruct I1 as [j [E Hj]].
    exists j. split; [exact Hj|now symmetry].
  - intros j Hj. apply I2.
    change (Peaks.at_ pw k :: map (Peaks.at_ pw) ks)
      with (map (Peaks.at_ pw) (k :: ks)).
    now apply in_map.
Qed.

(** [ps[power == target][0]] is the period at the first sample whose power
    equals the target, when there is one. *)
Lemma first_where_equal_spec (fr pw : list Q) (target : Q) :
  length fr = length pw ->
  forall k, (k < length pw)%nat -> Peaks.at_ pw k == target ->
  exists j,
    (j <= k)%nat /\
    first_where_equal (map frecip fr) pw target = Ok (frecip (nth j fr 0)) /\
    Peaks.at_ pw j == target /\
    forall i, (i < j)%nat -> ~ Peaks.at_ pw i == target.
Proof.
  revert pw. induction fr as [|f fr' IH]; intros [|w pw'] Hlen k Hk Ek;
    try discriminate; [simpl in Hk; lia|].
  cbn [map first_where_equal].
  destruct (Qeq_bool w target) eqn:E.
  - exists 0%nat. split; [lia|]. split; [reflexivity|].
    split; [now apply Qeq_bool_iff|]. intros i Hi. lia.
  - destruct k as [|k'].
    + apply Qeq_bool_neq in E. now destruct E.
    + destruct (IH pw' ltac:(now inversion Hlen) k'
                  ltac:(simpl in Hk; lia) Ek) as [j [Hj [Ej [Et Hf]]]].
      exists (S j). split; [lia|]. split; [exact Ej|].
      split; [exact Et|].
      intros i Hi. destruct i as [|i].
      * apply Qeq_bool_neq in E. exact E.
      * apply Hf. lia.
Qed.

(** With at least one peak, the lookup of line 113 succeeds: it finds the
    first sample whose power equals the largest peak power. *)
Lemma strongest_peak (fr pw : list Q) (k : nat) (ks : list nat) :
  length fr = length pw -> Peaks.peaks pw = k :: ks ->
  exists j,
    (j < length fr)%nat /\
    first_where_equal (map frecip fr) pw (max_at pw (k :: ks)) =
      Ok (frecip (nth j fr 0)) /\
    (forall k', In k' (Peaks.peaks pw) ->
       Peaks.at_ pw k' <= Peaks.at_ pw j) /\
    (exists k', In k' (Peaks.peaks pw) /\
       Peaks.at_ pw k' == Peaks.at_ pw j /\ (j <= k')%nat) /\
    (forall i, (i < j)%nat -> ~ Peaks.at_ pw i == Peaks.at_ pw j).
Proof.
  intros Hlen Hpk.
  destruct (max_at_spec pw k ks) as [[m [Hm Em]] Hub].
  assert (Bm : (m < length pw)%nat).
  { rewrite <- Hpk in Hm. apply PeaksFacts.peaks_iff in Hm.
    destruct Hm as [B _]. lia. }
  destruct (first_where_equal_spec fr pw (max_at pw (k :: ks)) Hlen m Bm)
    as [j [Hj [Ej [Et Hf]]]].
  { rewrite Em. reflexivity. }
  exists j. split; [lia|]. split; [exact Ej|]. split; [|split].
  - intros k' Hk'. rewrite Et. apply Hub. now rewrite <- Hpk.
  - exists m. split; [now rewrite Hpk|]. split; [|exact Hj].
    rewrite Et, Em. reflexivity.
  - intros i Hi. rewrite Et. now apply Hf.
Qed.

Lemma frecip_nonzero (f q : Q) : frecip f = Fin q -> ~ q == 0.
Proof.
  unfold frecip. destruct (Qeq_bool f 0) eqn:E; [discriminate|].
  intro H. injection H as <-. intro Z.
  apply Qeq_bool_neq in E. apply E.
  rewrite <- (Qinv_involutive f), Z. reflexivity.
Qed.

Section Methods.

Variable LombScargle_power : list Q -> list float -> Q -> Q.

(** A zero period bound, when the default grid is needed, stops the call at
    its first statement. *)
Lemma ls_rotation_zero_bound hp lo hi spp ifr ipw ilp s :
  ifr = None \/ ipw = None -> lo == 0 \/ hi == 0 ->
  ls_rotation LombScargle_power hp lo hi spp ifr ipw ilp s =
  (s, Raise ZeroDivisionError).
Proof.
  intros Hin Hz.
  assert (E : forall (k : unit -> M float),
     seqM (seqM (lift (py_recip hi)) (fun lo0 =>
           seqM (lift (py_recip lo)) (fun hi0 =>
           assign (set_freq (linspace lo0 hi0 nfreq))))) k s =
     (s, Raise ZeroDivisionError)).
  { intro k. unfold seqM, lift, py_recip.
    destruct (Qeq_bool hi 0) eqn:Eh; [reflexivity|].
    destruct (Qeq_bool lo 0) eqn:El; [reflexivity|].
    apply Qeq_bool_neq in Eh. apply Qeq_bool_neq in El.
    destruct Hz; contradiction. }
  unfold ls_rotation.
  destruct ifr as [f|], ipw as [w|]; try apply E.
  destruct Hin; discriminate.
Qed.

(** The frequency grid is the one set by the first statement. *)
Lemma freq_after hp lo hi spp ifr ipw ilp s :
  grid_defined lo hi ifr ipw ->
  freq (fst (ls_rotation LombScargle_power hp lo hi spp ifr ipw ilp s)) =
  freq (with_grid lo hi ifr ipw s).
Proof.
  intro G. destruct ilp as [p|].
  - now rewrite LS.ls_rotation_given.
  - destruct (forallb isfinite (flux s)) eqn:F.
    + rewrite (LS.ls_rotation_computed _ _ _ _ _ _ _ _ G F).
      destruct (Peaks.peaks _); [reflexivity|].
      destruct (first_where_equal _ _ _); reflexivity.
    + now rewrite (LS.ls_rotation_rejects _ _ _ _ _ _ _ _ G F).
Qed.

End Methods.

Lemma linspace_length (lo hi : Q) (n : nat) : length (linspace lo hi n) = n.
Proof. unfold linspace. now rewrite length_map, length_seq. Qed.

Lemma linspace_nth (lo hi : Q) (n i : nat) :
  (i < n)%nat ->
  nth i (linspace lo hi n) 0 = lo + Qnat i * ((hi - lo) / Qnat (n - 1)).
Proof.
  intro Hi. unfold linspace.
  rewrite (nth_indep _ 0 ((fun j => lo + Qnat j * ((hi - lo) / Qnat (n - 1)))
                            0%nat)) by (now rewrite length_map, length_seq).
  rewrite (map_nth (fun j => lo + Qnat j * ((hi - lo) / Qnat (n - 1)))).
  now rewrite seq_nth.
Qed.

End LSFacts.

(** X2. On all-finite flux, with a frequency grid that can be set and no
    [input_ls_period], [ls_rotation] never raises: it stores the computed
    periodogram in [power] and returns (and stores) a period, which is
    [1/freq[j]] at the first sample [j] whose power equals the largest peak
    power.  That sample is at least as powerful as every peak and lies at or
    before a peak of the same power; it need not be a peak itself. *)
Theorem ls_rotation_returns_strongest_peak
  (LombScargle_power : list Q -> list Num.float -> Q -> Q)
  (hp : bool) (min_period max_period : Q) (spp : nat)
  (input_freq input_power : option (list Q)) (s : Rotation.RotationModel)
  (G : Rotation.grid_defined min_period max_period input_freq input_power)
  (F : forallb isfinite (Rotation.flux s) = true) :
  let s1 := Rotation.with_grid min_period max_period input_freq input_power
              s in
  let fr := match Rotation.freq s1 with Some f => f | None => [] end in
  let pw := map (LombScargle_power (Rotation.time s) (Rotation.flux s)) fr in
  let run := Rotation.ls_rotation LombScargle_power hp min_period max_period
               spp input_freq input_power None s in
  Rotation.power (fst run) = Some pw /\
  exists p,
    snd run = Ok p /\ Rotation.ls_period (fst run) = Some p /\
    (Peaks.peaks pw <> [] ->
     exists j,
       (j < length fr)%nat /\ p = frecip (nth j fr 0) /\
       (forall k, In k (Peaks.peaks pw) ->
          Peaks.at_ pw k <= Peaks.at_ pw j) /\
       (exists k, In k (Peaks.peaks pw) /\
          Peaks.at_ pw k == Peaks.at_ pw j /\ (j <= k)%nat) /\
       (forall i, (i < j)%nat -> ~ Peaks.at_ pw i == Peaks.at_ pw j)).
Proof.
  cbv zeta.
  rewrite (LS.ls_rotation_computed LombScargle_power hp min_period
             max_period spp input_freq input_power s G F).
  set (s1 := Rotation.with_grid min_period max_period input_freq
               input_power s).
  set (fr := match Rotation.freq s1 with Some f => f | None => [] end).
  set (pw := map (LombScargle_power (Rotation.time s) (Rotation.flux s)) fr).
  destruct (Peaks.peaks pw) as [|k ks] eqn:Hpk.
  - split; [reflexivity|]. exists (Fin 0).
    split; [reflexivity|]. split; [reflexivity|]. intro N. congruence.
  - destruct (LSFacts.strongest_peak fr pw k ks) as [j [Bj [Ej Hj]]].
    { unfold pw. now rewrite length_map. }
    { exact Hpk. }
    rewrite Ej. split; [reflexivity|].
    exists (frecip (nth j fr 0)).
    split; [reflexivity|]. split; [reflexivity|]. intros _.
    exists j. split; [exact Bj|]. split; [reflexivity|].
    rewrite Hpk in Hj. exact Hj.
Qed.

(** Frequencies 1, 2, 3, 4 with power 5, 1, 5, 1: the one peak is at index
    2, and the first sample of that power is the end point at index 0. *)
Lemma ls_rotation_returns_strongest_peak_witness :
  snd (Rotation.ls_rotation
         (fun _ _ f => if Qeq_bool f 1 then 5
                       else if Qeq_bool f 3 then 5 else 1)
         false (1 # 2) 50 50 (Some [1; 2; 3; 4]) (Some []) None
         (Rotation.fresh [0; 1; 2] [Fin 1; Fin 2; Fin 3]
            [Fin 0; Fin 0; Fin 0] (Fin 2))) = Ok (Fin 1).
Proof.
  destruct (ls_rotation_returns_strongest_peak
              (fun _ _ f => if Qeq_bool f 1 then 5
                            else if Qeq_bool f 3 then 5 else 1)
              false (1 # 2) 50 50%nat (Some [1; 2; 3; 4]) (Some [])
              (Rotation.fresh [0; 1; 2] [Fin 1; Fin 2; Fin 3]
                 [Fin 0; Fin 0; Fin 0] (Fin 2))
              ltac:(left; now exists [1; 2; 3; 4], []) eq_refl)
    as [_ [p [E _]]].
  rewrite E. vm_compute in E. injection E as <-. reflexivity.
Defined.

(** X3. Under the same conditions a returned period equal to 0 means
    exactly that the periodogram has no peak: whenever a peak exists the
    returned period is not 0. *)
Theorem ls_zero_period_means_no_peak
  (LombScargle_power : list Q -> list Num.float -> Q -> Q)
  (hp : bool) (min_period max_period : Q) (spp : nat)
  (input_freq input_power : option (list Q)) (s : Rotation.RotationModel)
  (G : Rotation.grid_defined min_period max_period input_freq input_power)
  (F : forallb isfinite (Rotation.flux s) = true) :
  let s1 := Rotation.with_grid min_period max_period input_freq input_power
              s in
  let fr := match Rotation.freq s1 with Some f => f | None => [] end in
  let pw := map (LombScargle_power (Rotation.time s) (Rotation.flux s)) fr in
  let run := Rotation.ls_rotation LombScargle_power hp min_period max_period
               spp input_freq input_power None s in
  (Peaks.peaks pw = [] -> snd run = Ok (Fin 0)) /\
  (forall q, snd run = Ok (Fin q) -> q == 0 -> Peaks.peaks pw = []).
Proof.
  cbv zeta.
  rewrite (LS.ls_rotation_computed LombScargle_power hp min_period
             max_period spp input_freq input_power s G F).
  set (s1 := Rotation.with_grid min_period max_period input_freq
               input_power s).
  set (fr := match Rotation.freq s1 with Some f => f | None => [] end).
  set (pw := map (LombScargle_power (Rotation.time s) (Rotation.flux s)) fr).
  destruct (Peaks.peaks pw) as [|k ks] eqn:Hpk.
  - split; reflexivity.
  - split; [discriminate|]. intros q Hq Z. exfalso.
    destruct (LSFacts.strongest_peak fr pw k ks) as [j [_ [Ej _]]].
    { unfold pw. now rewrite length_map. }
    { exact Hpk. }
    rewrite Ej in Hq. cbn [snd] in Hq. injection Hq as Hq.
    exact (LSFacts.frecip_nonzero _ _ Hq Z).
Qed.

(** A rising periodogram has no peak and gives the period 0. *)
Lemma ls_zero_period_means_no_peak_witness :
  snd (Rotation.ls_rotation (fun _ _ f => f) false (1 # 2) 50 50
         (Some [1; 2; 3; 4]) (Some []) None
         (Rotation.fresh [0; 1; 2] [Fin 1; Fin 2; Fin 3]
            [Fin 0; Fin 0; Fin 0] (Fin 2))) = Ok (Fin 0).
Proof.
  apply (ls_zero_period_means_no_peak (fun _ _ f => f) false (1 # 2) 50
           50%nat (Some [1; 2; 3; 4]) (Some [])
           (Rotation.fresh [0; 1; 2] [Fin 1; Fin 2; Fin 3]
              [Fin 0; Fin 0; Fin 0] (Fin 2))
           ltac:(left; now exists [1; 2; 3; 4], []) eq_refl).
  reflexivity.
Defined.

(** X4. When the periodogram is computed (no [input_ls_period], finite
    flux), a supplied [input_power] is overwritten: the outcome and the
    object afterwards are the same whatever values [input_power] holds, and
    [power] is the periodogram at [input_freq]. *)
Theorem ls_input_power_is_overwritten
  (LombScargle_power : list Q -> list Num.float -> Q -> Q)
  (hp : bool) (min_period max_period : Q) (spp : nat)
  (f w w' : list Q) (s : Rotation.RotationModel)
  (F : forallb isfinite (Rotation.flux s) = true) :
  let run v := Rotation.ls_rotation LombScargle_power hp min_period
                 max_period spp (Some f) (Some v) None s in
  run w = run w' /\
  Rotation.power (fst (run w)) =
    Some (map (LombScargle_power (Rotation.time s) (Rotation.flux s)) f).
Proof.
  cbv beta zeta.
  assert (G : forall v, Rotation.grid_defined min_period max_period
                          (Some f) (Some v)).
  { intro v. left. now exists f, v. }
  rewrite (LS.ls_rotation_computed LombScargle_power hp min_period
             max_period spp (Some f) (Some w) s (G w) F).
  rewrite (LS.ls_rotation_computed LombScargle_power hp min_period
             max_period spp (Some f) (Some w') s (G w') F).
  cbn [Rotation.with_grid Rotation.freq Rotation.set_power
       Rotation.set_freq].
  destruct (Peaks.peaks _) as [|k ks].
  - split; reflexivity.
  - destruct (Rotation.first_where_equal _ _ _); split; reflexivity.
Qed.

(** The same call with two different [input_power] arrays. *)
Lemma ls_input_power_is_overwritten_witness :
  Rotation.ls_rotation (fun _ _ f => f) false (1 # 2) 50 50
    (Some [1; 2; 3; 4]) (Some [9; 9; 9; 9]) None
    (Rotation.fresh [0; 1; 2] [Fin 1; Fin 2; Fin 3] [Fin 0; Fin 0; Fin 0]
       (Fin 2)) =
  Rotation.ls_rotation (fun _ _ f => f) false (1 # 2) 50 50
    (Some [1; 2; 3; 4]) (Some []) None
    (Rotation.fresh [0; 1; 2] [Fin 1; Fin 2; Fin 3] [Fin 0; Fin 0; Fin 0]
       (Fin 2)).
Proof.
  apply (ls_input_power_is_overwritten (fun _ _ f => f) false (1 # 2) 50
           50%nat [1; 2; 3; 4] [9; 9; 9; 9] []
           (Rotation.fresh [0; 1; 2] [Fin 1; Fin 2; Fin 3]
              [Fin 0; Fin 0; Fin 0] (Fin 2)) eq_refl).
Defined.

(** X5. Unless both [input_freq] and [input_power] are given, a period
    bound equal to 0 makes [ls_rotation] raise ZeroDivisionError at its
    first statement, with no attribute written, also when
    [input_ls_period] is given; and one of the two curve inputs given alone
    is ignored. *)
Theorem ls_rotation_zero_period_bound
  (LombScargle_power : list Q -> list Num.float -> Q -> Q)
  (hp : bool) (min_period max_period : Q) (spp : nat)
  (input_freq input_power : option (list Q))
  (input_ls_period : option Num.float) (s : Rotation.RotationModel)
  (Hin : input_freq = None \/ input_power = None) :
  Rotation.ls_rotation LombScargle_power hp min_period max_period spp
    input_freq input_power input_ls_period s =
  Rotation.ls_rotation LombScargle_power hp min_period max_period spp
    None None input_ls_period s /\
  (min_period == 0 \/ max_period == 0 ->
   Rotation.ls_rotation LombScargle_power hp min_period max_period spp
     input_freq input_power input_ls_period s =
   (s, Raise ZeroDivisionError)).
Proof.
  split.
  - destruct input_freq, input_power; try reflexivity.
    destruct Hin; discriminate.
  - intro Hz. now apply LSFacts.ls_rotation_zero_bound.
Qed.

(** A zero minimum period with a given [input_ls_period]. *)
Lemma ls_rotation_zero_period_bound_witness :
  snd (Rotation.ls_rotation (fun _ _ f => f) false 0 50 50
         (Some [1; 2; 3]) None (Some (Fin 7))
         (Rotation.fresh [0; 1; 2] [Fin 1; Fin 2; Fin 3]
            [Fin 0; Fin 0; Fin 0] (Fin 2))) = Raise ZeroDivisionError.
Proof.
  destruct (ls_rotation_zero_period_bound (fun _ _ f => f) false 0 50
              50%nat (Some [1; 2; 3]) None (Some (Fin 7))
              (Rotation.fresh [0; 1; 2] [Fin 1; Fin 2; Fin 3]
                 [Fin 0; Fin 0; Fin 0] (Fin 2)) (or_intror eq_refl))
    as [_ H].
  rewrite H; [reflexivity|]. left. reflexivity.
Defined.

(** X6. With non-zero period bounds and the default grid, every call of
    [ls_rotation] leaves in [freq] an evenly spaced grid of 100000
    frequencies that starts at [1/max_period] and ends at [1/min_period]. *)
Theorem default_frequency_grid
  (LombScargle_power : list Q -> list Num.float -> Q -> Q)
  (hp : bool) (min_period max_period : Q) (spp : nat)
  (input_freq input_power : option (list Q))
  (input_ls_period : option Num.float) (s : Rotation.RotationModel)
  (Hin : input_freq = None \/ input_power = None)
  (Hmin : ~ min_period == 0) (Hmax : ~ max_period == 0) :
  exists fr,
    Rotation.freq
      (fst (Rotation.ls_rotation LombScargle_power hp min_period max_period
              spp input_freq input_power input_ls_period s)) = Some fr /\
    Z.of_nat (length fr) = 100000%Z /\
    nth 0 fr 0 == / max_period /\
    nth (Z.to_nat 99999) fr 0 == / min_period /\
    forall i, (Z.of_nat i < 99999)%Z ->
      nth (S i) fr 0 - nth i fr 0 ==
      (/ min_period - / max_period) / 99999.
Proof.
  assert (G : Rotation.grid_defined min_period max_period input_freq
                input_power) by (right; now split).
  rewrite (LSFacts.freq_after LombScargle_power hp min_period max_period
             spp input_freq input_power input_ls_period s G).
  exists (linspace (/ max_period) (/ min_period) Rotation.nfreq).
  assert (N : Z.of_nat Rotation.nfreq = 100000%Z)
    by (unfold Rotation.nfreq; lia).
  assert (N1 : Qnat (Rotation.nfreq - 1) == 99999).
  { unfold Qnat. replace (Z.of_nat (Rotation.nfreq - 1)) with 99999%Z by lia.
    reflexivity. }
  split; [|split; [|split; [|split]]].
  - unfold Rotation.with_grid.
    destruct Hin as [-> | ->]; [reflexivity|].
    destruct input_freq; reflexivity.
  - rewrite LSFacts.linspace_length. exact N.
  - rewrite LSFacts.linspace_nth by lia.
    change (Qnat 0) with 0. ring.
  - rewrite LSFacts.linspace_nth by lia.
    replace (Z.to_nat 99999) with (Rotation.nfreq - 1)%nat by lia.
    rewrite N1. generalize (/ max_period), (/ min_period). intros u v.
    field.
  - intros i Hi. rewrite !LSFacts.linspace_nth by lia.
    rewrite N1. generalize (/ max_period), (/ min_period). intros u v.
    assert (ES : Qnat (S i) == Qnat i + 1).
    { unfold Qnat. rewrite Nat2Z.inj_succ, <- Z.add_1_r, inject_Z_plus.
      reflexivity. }
    rewrite ES. field.
Qed.

(** The default bounds 0.5 and 50 days. *)
Lemma default_frequency_grid_witness :
  exists fr,
    Rotation.freq
      (fst (Rotation.ls_rotation (fun _ _ f => f) false (1 # 2) 50 50 None
              None (Some (Fin 7))
              (Rotation.fresh [0; 1; 2] [Fin 1; Fin 2; Fin 3]
                 [Fin 0; Fin 0; Fin 0] (Fin 2)))) = Some fr /\
    Z.of_nat (length fr) = 100000%Z /\
    nth 0 fr 0 == / 50.
Proof.
  destruct (default_frequency_grid (fun _ _ f => f) false (1 # 2) 50 50%nat
              None None (Some (Fin 7))
              (Rotation.fresh [0; 1; 2] [Fin 1; Fin 2; Fin 3]
                 [Fin 0; Fin 0; Fin 0] (Fin 2)) (or_introl eq_refl)
              ltac:(discriminate) ltac:(discriminate))
    as [fr [E [L [A _]]]].
  exists fr. split; [exact E|]. split; [exact L|exact A].
Defined.

(** ** Shapes of the three methods *)

Module Shapes.
Import Rotation.

Lemma grid_cases lo hi (ifr ipw : option (list Q)) :
  grid_defined lo hi ifr ipw \/
  ((ifr = None \/ ipw = None) /\ (lo == 0 \/ hi == 0)).
Proof.
  destruct ifr as [f|]; [destruct ipw as [w|]|].
  - left. left. now exists f, w.
  - destruct (Qeq_bool lo 0) eqn:El;
      [right; split; [now right|left; now apply Qeq_bool_iff]|].
    destruct (Qeq_bool hi 0) eqn:Eh;
      [right; split; [now right|right; now apply Qeq_bool_iff]|].
    left. right. split; now apply Qeq_bool_neq.
  - destruct (Qeq_bool lo 0) eqn:El;
      [right; split; [now left|left; now apply Qeq_bool_iff]|].
    destruct (Qeq_bool hi 0) eqn:Eh;
      [right; split; [now left|right; now apply Qeq_bool_iff]|].
    left. right. split; now apply Qeq_bool_neq.
Qed.

Lemma with_grid_reads lo hi ifr ipw s :
  time (with_grid lo hi ifr ipw s) = time s /\
  flux (with_grid lo hi ifr ipw s) = flux s.
Proof. unfold with_grid. destruct ifr, ipw; split; reflexivity. Qed.

Lemma with_grid_freq lo hi ifr ipw s s' :
  freq (with_grid lo hi ifr ipw s') = freq (with_grid lo hi ifr ipw s).
Proof. unfold with_grid. destruct ifr, ipw; reflexivity. Qed.

Lemma mapM_length {A B} (f : A -> result B) (l : list A) (ys : list B) :
  mapM f l = Ok ys -> length ys = length l.
Proof.
  revert ys. induction l as [|x r IH]; intros ys H; simpl in H.
  - now inversion H.
  - destruct (f x) as [y|e]; [|discriminate]. simpl in H.
    destruct (mapM f r) as [ys'|e]; [|discriminate]. simpl in H.
    inversion H; subst. simpl. now rewrite (IH ys').
Qed.

Section Methods.

Variable LombScargle_power : list Q -> list float -> Q -> Q.
Variable simple_acf :
  list Q -> list float -> Q -> Q -> nat -> nat ->
  list Q * list Q * list Q * list Q.
Variable curve_fit :
  list Q -> list (option Q) -> Q -> option (Q * Q * Q * Q).

(** [acf_rotation] on any object holding the light curve of [s]. *)
Lemma acf_rotation_shape interval smooth cutoff wl po s X :
  time X = time s -> flux X = flux s ->
  acf_rotation simple_acf interval smooth cutoff wl po X =
  let '(lags, acf, _x, _y) :=
    simple_acf (time s) (flux s) (cadence interval) smooth wl po in
  let masked := above_cutoff cutoff lags acf in
  if (length lags =? length acf)%nat then
    match fst (Peaks.get_peak_statistics (map fst masked) (map snd masked)
                 Peaks.Height) with
    | [] => (acf_state _x _y (map fst masked) (map snd masked) X,
             Raise IndexError)
    | p :: _ => (set_acf_period p
                   (acf_state _x _y (map fst masked) (map snd masked) X),
                 Ok p)
    end
  else (set_acf_y _y (set_acf_x _x X), Raise IndexError).
Proof.
  intros Xt Xf. unfold acf_rotation. unfold seqM at 1. unfold self at 1.
  rewrite Xt, Xf.
  destruct (simple_acf (time s) (flux s) (cadence interval) smooth wl po)
    as [[[lags acf] _x] _y].
  destruct (length lags =? length acf)%nat; [|reflexivity].
  destruct (Peaks.get_peak_statistics _ _ _) as [xp yp].
  destruct xp; reflexivity.
Qed.

(** [pdm_rotation] on any object holding the light curve of [s]. *)
Lemma pdm_rotation_shape grid nbins s X :
  time X = time s -> flux X = flux s ->
  pdm_rotation curve_fit grid nbins X =
  let X0 := set_period_grid grid (set_pdm_nbins nbins X) in
  match mapM (fun p => PDM.phi nbins p (time s) (flux s)) grid with
  | Raise e => (X0, Raise e)
  | Ok phis =>
      match argmin phis with
      | Raise e => (set_phis phis X0, Raise e)
      | Ok ind =>
          match index grid ind with
          | Raise e => (set_phis phis X0, Raise e)
          | Ok best =>
              let '(err, mu, a, b) :=
                PDM.estimate_uncertainty curve_fit grid phis best in
              let X1 := set_period_err err (set_b b (set_a a (set_mu mu
                          (set_sigma err (set_pdm_period best
                             (set_phis phis X0)))))) in
              match PDM.calc_phase best (time s) with
              | Raise e => (X1, Raise e)
              | Ok phase => (set_phase phase X1, Ok (best, err))
              end
          end
      end
  end.
Proof.
  intros Xt Xf. unfold pdm_rotation.
  unfold seqM at 1. unfold assign at 1.
  unfold seqM at 1. unfold assign at 1.
  unfold seqM at 1. unfold self at 1.
  unfold seqM at 1. unfold lift at 1.
  cbn [time flux set_pdm_nbins set_period_grid]. rewrite Xt, Xf.
  destruct (mapM _ grid) as [phis|e]; [|reflexivity].
  unfold seqM at 1. unfold assign at 1.
  unfold seqM at 1. unfold lift at 1.
  destruct (argmin phis) as [ind|e]; [|reflexivity].
  unfold seqM at 1. unfold lift at 1.
  destruct (index grid ind) as [best|e]; [|reflexivity].
  unfold seqM at 1. unfold assign at 1.
  destruct (PDM.estimate_uncertainty curve_fit grid phis best)
    as [[[err mu0] a0] b0].
  unfold seqM, assign, lift, ret.
  destruct (PDM.calc_phase best (time s)); reflexivity.
Qed.

Lemma ls_rotation_again hp lo hi spp ifr ipw ilp s :
  ls_rotation LombScargle_power hp lo hi spp ifr ipw ilp
    (fst (ls_rotation LombScargle_power hp lo hi spp ifr ipw ilp s)) =
  ls_rotation LombScargle_power hp lo hi spp ifr ipw ilp s.
Proof.
  destruct (grid_cases lo hi ifr ipw) as [G|[Hin Hz]].
  2:{ rewrite !(LSFacts.ls_rotation_zero_bound LombScargle_power hp lo hi
                  spp ifr ipw ilp _ Hin Hz). reflexivity. }
  destruct (with_grid_reads lo hi ifr ipw s) as [Ht Hf].
  destruct ilp as [p|].
  - rewrite !(LS.ls_rotation_given LombScargle_power _ _ _ _ _ _ _ _ G).
    cbn [fst]. f_equal. unfold with_grid.
    destruct ifr, ipw; destruct s; reflexivity.
  - destruct (forallb isfinite (flux s)) eqn:F.
    + rewrite (LS.ls_rotation_computed LombScargle_power _ _ _ _ _ _ s G F).
      set (s1 := with_grid lo hi ifr ipw s) in *.
      set (fr := match freq s1 with Some f => f | None => [] end).
      set (pw := map (LombScargle_power (time s) (flux s)) fr).
      assert (R : forall X, time X = time s -> flux X = flux s ->
        ls_rotation LombScargle_power hp lo hi spp ifr ipw None X =
        match Peaks.peaks pw with
        | [] => (set_ls_period (Fin 0)
                   (set_power pw (with_grid lo hi ifr ipw X)), Ok (Fin 0))
        | k :: ks =>
            match first_where_equal (map frecip fr) pw
                    (max_at pw (k :: ks)) with
            | Ok p => (set_ls_period p
                         (set_power pw (with_grid lo hi ifr ipw X)), Ok p)
            | Raise e => (set_power pw (with_grid lo hi ifr ipw X), Raise e)
            end
        end).
      { intros X Xt Xf.
        rewrite (LS.ls_rotation_computed LombScargle_power _ _ _ _ _ _ X G)
          by (rewrite Xf; exact F).
        rewrite Xt, Xf, (with_grid_freq lo hi ifr ipw s X). reflexivity. }
      destruct (Peaks.peaks pw) as [|k ks].
      * cbn [fst]. rewrite R; [|exact Ht|exact Hf].
        f_equal. unfold s1, with_grid.
        destruct ifr, ipw; destruct s; reflexivity.
      * destruct (first_where_equal _ _ _) as [p|e]; cbn [fst];
          (rewrite R; [|exact Ht|exact Hf]);
          f_equal; unfold s1, with_grid;
          destruct ifr, ipw; destruct s; reflexivity.
    + rewrite (LS.ls_rotation_rejects LombScargle_power _ _ _ _ _ _ s G F).
      cbn [fst].
      rewrite (LS.ls_rotation_rejects LombScargle_power _ _ _ _ _ _ _ G)
        by (rewrite Hf; exact F).
      f_equal. unfold with_grid. destruct ifr, ipw; destruct s; reflexivity.
Qed.

Lemma acf_rotation_again interval smooth cutoff wl po s :
  acf_rotation simple_acf interval smooth cutoff wl po
    (fst (acf_rotation simple_acf interval smooth cutoff wl po s)) =
  acf_rotation simple_acf interval smooth cutoff wl po s.
Proof.
  pose proof (acf_rotation_shape interval smooth cutoff wl po s) as R.
  rewrite (R s eq_refl eq_refl).
  destruct (simple_acf (time s) (flux s) (cadence interval) smooth wl po)
    as [[[lags acf] _x] _y] eqn:E.
  cbv zeta.
  destruct (length lags =? length acf)%nat eqn:L.
  - destruct (fst (Peaks.get_peak_statistics _ _ _)) as [|p r] eqn:P;
      cbn [fst]; (rewrite R; [|reflexivity|reflexivity]);
      rewrite ?E; cbv zeta; rewrite ?L, ?P; f_equal;
      destruct s; reflexivity.
  - cbn [fst]. rewrite R; [|reflexivity|reflexivity].
    rewrite ?E, ?L. f_equal. destruct s; reflexivity.
Qed.

Lemma pdm_rotation_again grid nbins s :
  pdm_rotation curve_fit grid nbins
    (fst (pdm_rotation curve_fit grid nbins s)) =
  pdm_rotation curve_fit grid nbins s.
Proof.
  pose proof (pdm_rotation_shape grid nbins s) as R.
  rewrite (R s eq_refl eq_refl). cbv zeta.
  destruct (mapM _ grid) as [phis|e].
  2:{ cbn [fst]. rewrite R; [|reflexivity|reflexivity]. reflexivity. }
  destruct (argmin phis) as [ind|e].
  2:{ cbn [fst]. rewrite R; [|reflexivity|reflexivity]. reflexivity. }
  destruct (index grid ind) as [best|e].
  2:{ cbn [fst]. rewrite R; [|reflexivity|reflexivity]. reflexivity. }
  destruct (PDM.estimate_uncertainty curve_fit grid phis best)
      as [[[err mu0] a0] b0].
  destruct (PDM.calc_phase best (time s)) as [ph|e];
    cbn [fst]; (rewrite R; [|reflexivity|reflexivity]);
    destruct s;
    cbv [set_phase set_period_err set_b set_a set_mu set_sigma
         set_pdm_period set_phis set_period_grid set_pdm_nbins
         Rotation.time Rotation.flux Rotation.flux_err Rotation.Rvar
         Rotation.freq Rotation.power Rotation.ls_period Rotation.acf_x
         Rotation.acf_y Rotation.lags Rotation.acf Rotation.acf_period
         Rotation.pdm_nbins Rotation.period_grid Rotation.phis
         Rotation.pdm_period Rotation.sigma Rotation.mu Rotation.a
         Rotation.b Rotation.period_err Rotation.phase];
    reflexivity.
Qed.

End Methods.

End Shapes.

(** X7. Calling [ls_rotation], [acf_rotation] or [pdm_rotation] a second
    time with the same arguments gives the same outcome (value or
    exception) and leaves the object exactly as the first call left it:
    the methods read only the light curve, not what earlier calls stored. *)
Theorem methods_are_idempotent
  (LombScargle_power : list Q -> list Num.float -> Q -> Q)
  (simple_acf : list Q -> list Num.float -> Q -> Q -> nat -> nat ->
                list Q * list Q * list Q * list Q)
  (curve_fit : list Q -> list (option Q) -> Q -> option (Q * Q * Q * Q))
  (s : Rotation.RotationModel) :
  (forall hp lo hi spp ifr ipw ilp,
     let run := Rotation.ls_rotation LombScargle_power hp lo hi spp ifr ipw
                  ilp in
     run (fst (run s)) = run s) /\
  (forall interval smooth cutoff wl po,
     let run := Rotation.acf_rotation simple_acf interval smooth cutoff wl
                  po in
     run (fst (run s)) = run s) /\
  (forall grid nbins,
     let run := Rotation.pdm_rotation curve_fit grid nbins in
     run (fst (run s)) = run s).
Proof.
  split; [|split]; intros; cbv zeta.
  - apply Shapes.ls_rotation_again.
  - apply Shapes.acf_rotation_again.
  - apply Shapes.pdm_rotation_again.
Qed.

(** ** More on the autocorrelation and phase-dispersion methods *)

Module Outcomes.
Import Rotation.

Lemma combine_fst_snd {A B} (l : list (A * B)) :
  combine (map fst l) (map snd l) = l.
Proof.
  induction l as [|[x y] r IH]; [reflexivity|]. simpl. now rewrite IH.
Qed.

Lemma above_cutoff_all (cutoff : Q) (lags acf : list Q) :
  Forall (fun l => cutoff < l) (map fst (above_cutoff cutoff lags acf)).
Proof.
  apply Forall_forall. intros l Hl. apply in_map_iff in Hl.
  destruct Hl as [la [<- Hla]]. unfold above_cutoff in Hla.
  apply filter_In in Hla. apply Qltb_lt. apply Hla.
Qed.

End Outcomes.

(** X8. When [get_peak_statistics] returns no peak for the curve above the
    cutoff, [acf_rotation] raises IndexError at [xpeaks[0]]: by then
    [acf_x], [acf_y], [lags] and [acf] have been assigned, and [acf_period]
    keeps the value it had. *)
Theorem acf_rotation_without_peak
  (simple_acf : list Q -> list Num.float -> Q -> Q -> nat -> nat ->
                list Q * list Q * list Q * list Q)
  (interval : Rotation.interval_arg) (smooth cutoff : Q) (wl po : nat)
  (s : Rotation.RotationModel) (lags acf _x _y : list Q)
  (Hacf : simple_acf (Rotation.time s) (Rotation.flux s)
            (Rotation.cadence interval) smooth wl po = (lags, acf, _x, _y))
  (Hlen : length lags = length acf)
  (Hnone : fst (Peaks.get_peak_statistics
                  (map fst (Rotation.above_cutoff cutoff lags acf))
                  (map snd (Rotation.above_cutoff cutoff lags acf))
                  Peaks.Height) = []) :
  let run := Rotation.acf_rotation simple_acf interval smooth cutoff wl po s in
  snd run = Raise IndexError /\
  Rotation.acf_period (fst run) = Rotation.acf_period s /\
  Rotation.acf_x (fst run) = Some _x /\
  Rotation.acf_y (fst run) = Some _y /\
  Rotation.lags (fst run) =
    Some (map fst (Rotation.above_cutoff cutoff lags acf)) /\
  Rotation.acf (fst run) =
    Some (map snd (Rotation.above_cutoff cutoff lags acf)).
Proof.
  cbv zeta.
  rewrite (ACF.acf_rotation_run simple_acf interval smooth cutoff wl po s
             lags acf _x _y Hacf Hlen).
  rewrite Hnone. repeat split.
Qed.

(** A falling autocorrelation curve has no peak. *)
Lemma acf_rotation_without_peak_witness :
  snd (Rotation.acf_rotation
         (fun _ _ _ _ _ _ => ([0; 1; 2; 3; 4], [5; 4; 3; 2; 1], [], []))
         Rotation.TESS 9 0 99 3
         (Rotation.fresh [0; 1; 2] [Fin 1; Fin 2; Fin 3]
            [Fin 0; Fin 0; Fin 0] (Fin 2))) = Raise IndexError.
Proof.
  apply (acf_rotation_without_peak
           (fun _ _ _ _ _ _ => ([0; 1; 2; 3; 4], [5; 4; 3; 2; 1], [], []))
           Rotation.TESS 9 0 99 3
           (Rotation.fresh [0; 1; 2] [Fin 1; Fin 2; Fin 3]
              [Fin 0; Fin 0; Fin 0] (Fin 2))
           [0; 1; 2; 3; 4] [5; 4; 3; 2; 1] [] [] eq_refl eq_refl eq_refl).
Defined.

(** X9. Whenever the autocorrelation routine returns lags and correlations
    of one length, [acf_rotation] stores in [lags] and [acf] exactly the
    samples whose lag is above the cutoff, in their order: the two arrays
    have one length, every stored lag exceeds the cutoff, and a returned
    period is the stored [acf_period]. *)
Theorem acf_rotation_stores_masked_curve
  (simple_acf : list Q -> list Num.float -> Q -> Q -> nat -> nat ->
                list Q * list Q * list Q * list Q)
  (interval : Rotation.interval_arg) (smooth cutoff : Q) (wl po : nat)
  (s : Rotation.RotationModel) (lags acf _x _y : list Q)
  (Hacf : simple_acf (Rotation.time s) (Rotation.flux s)
            (Rotation.cadence interval) smooth wl po = (lags, acf, _x, _y))
  (Hlen : length lags = length acf) :
  let run := Rotation.acf_rotation simple_acf interval smooth cutoff wl po s in
  exists xs ys,
    Rotation.lags (fst run) = Some xs /\
    Rotation.acf (fst run) = Some ys /\
    length xs = length ys /\
    combine xs ys =
      filter (fun la => Qltb cutoff (fst la)) (combine lags acf) /\
    Forall (fun l => cutoff < l) xs /\
    (forall p, snd run = Ok p -> Rotation.acf_period (fst run) = Some p).
Proof.
  cbv zeta.
  rewrite (ACF.acf_rotation_run simple_acf interval smooth cutoff wl po s
             lags acf _x _y Hacf Hlen).
  exists (map fst (Rotation.above_cutoff cutoff lags acf)),
         (map snd (Rotation.above_cutoff cutoff lags acf)).
  assert (L : length (map fst (Rotation.above_cutoff cutoff lags acf)) =
              length (map snd (Rotation.above_cutoff cutoff lags acf)))
    by (now rewrite !length_map).
  destruct (fst (Peaks.get_peak_statistics _ _ _)) as [|p r]; cbn [fst snd].
  - split; [reflexivity|]. split; [reflexivity|]. split; [exact L|].
    split; [apply Outcomes.combine_fst_snd|].
    split; [apply Outcomes.above_cutoff_all|]. intros p H. discriminate H.
  - split; [reflexivity|]. split; [reflexivity|]. split; [exact L|].
    split; [apply Outcomes.combine_fst_snd|].
    split; [apply Outcomes.above_cutoff_all|].
    intros q H. injection H as <-. reflexivity.
Qed.

(** Seven samples cut off at lag 2: four remain. *)
Lemma acf_rotation_stores_masked_curve_witness :
  exists xs ys : list Q,
    Rotation.lags
      (fst (Rotation.acf_rotation
              (fun _ _ _ _ _ _ =>
                 ([0; 1; 2; 3; 4; 5; 6], [10; 3; 5; 2; 8; 1; 0], [], []))
              Rotation.Kepler 9 2 99 3
              (Rotation.fresh [0; 1; 2] [Fin 1; Fin 2; Fin 3]
                 [Fin 0; Fin 0; Fin 0] (Fin 2)))) = Some xs /\
    length xs = length ys /\
    Forall (fun l => 2 < l) xs.
Proof.
  destruct (acf_rotation_stores_masked_curve
              (fun _ _ _ _ _ _ =>
                 ([0; 1; 2; 3; 4; 5; 6], [10; 3; 5; 2; 8; 1; 0], [], []))
              Rotation.Kepler 9 2 99 3
              (Rotation.fresh [0; 1; 2] [Fin 1; Fin 2; Fin 3]
                 [Fin 0; Fin 0; Fin 0] (Fin 2))
              [0; 1; 2; 3; 4; 5; 6] [10; 3; 5; 2; 8; 1; 0] [] []
              eq_refl eq_refl)
    as [xs [ys [H1 [_ [H2 [_ [H3 _]]]]]]].
  exists xs, ys. split; [exact H1|]. split; [exact H2|exact H3].
Defined.

(** X10. Every call of [pdm_rotation] stores [pdm_nbins] and
    [period_grid], also when it raises.  When it returns [(p, err)], [p] is
    the grid point at [np.argmin] of the stored profile, which has one entry
    per grid point; [p] is stored in [pdm_period] and [err] in both [sigma]
    and [period_err]; and when every entry of the profile is defined, [p]
    has a least value, strictly below every earlier grid point's, so ties go
    to the first grid point. *)
Theorem pdm_rotation_outcome
  (curve_fit : list Q -> list (option Q) -> Q -> option (Q * Q * Q * Q))
  (grid : list Q) (nbins : nat) (s : Rotation.RotationModel) :
  let run := Rotation.pdm_rotation curve_fit grid nbins s in
  Rotation.pdm_nbins (fst run) = Some nbins /\
  Rotation.period_grid (fst run) = Some grid /\
  forall p err, snd run = Ok (p, err) ->
    Rotation.pdm_period (fst run) = Some p /\
    Rotation.sigma (fst run) = Some err /\
    Rotation.period_err (fst run) = Some err /\
    exists phis ind,
      Rotation.phis (fst run) = Some phis /\
      length phis = length grid /\
      argmin phis = Ok ind /\ nth_error grid ind = Some p /\
      (Forall (fun o => o <> None) phis ->
       exists q, nth_error phis ind = Some (Some q) /\
         forall j qj, nth_error phis j = Some (Some qj) ->
           q <= qj /\ ((j < ind)%nat -> q < qj)).
Proof.
  cbv zeta.
  rewrite (Shapes.pdm_rotation_shape curve_fit grid nbins s s eq_refl
             eq_refl).
  cbv zeta.
  destruct (mapM _ grid) as [phis|e] eqn:E1;
    [|split; [reflexivity|]; split; [reflexivity|]; intros p err H;
      discriminate H].
  destruct (argmin phis) as [ind|e] eqn:E2;
    [|split; [reflexivity|]; split; [reflexivity|]; intros p err H;
      discriminate H].
  unfold Rotation.index.
  destruct (nth_error grid ind) as [best|] eqn:E3;
    [|split; [reflexivity|]; split; [reflexivity|]; intros p err H;
      discriminate H].
  destruct (PDM.estimate_uncertainty curve_fit grid phis best)
    as [[[err0 mu0] a0] b0].
  destruct (PDM.calc_phase best (Rotation.time s)) as [ph|e];
    [|split; [reflexivity|]; split; [reflexivity|]; intros p err H;
      discriminate H].
  split; [reflexivity|]. split; [reflexivity|].
  intros p err H. cbn [snd] in H. injection H as <- <-. cbn [fst].
  split; [reflexivity|]. split; [reflexivity|]. split; [reflexivity|].
  exists phis, ind. split; [reflexivity|].
  split; [exact (Shapes.mapM_length _ _ _ E1)|].
  split; [exact E2|]. split; [exact E3|].
  intro Hdef.
  destruct (LoopFacts.argmin_spec phis) as [i [Ea [_ [U|D]]]].
  { intro N. subst phis. discriminate E2. }
  - rewrite E2 in Ea. injection Ea as <-.
    apply nth_error_In in U. rewrite Forall_forall in Hdef.
    now destruct (Hdef _ U).
  - rewrite E2 in Ea. injection Ea as <-.
    destruct D as [q [Hq [_ Hmin]]]. exists q. split; [exact Hq|exact Hmin].
Qed.

(** Two grid points with the same dispersion: periods 2 and 2/3 both fold
    the alternating light curve perfectly, and the first is returned. *)
Lemma pdm_rotation_outcome_witness :
  let run :=
    Rotation.pdm_rotation (fun _ _ _ => None) [2; 2 # 3] 2
      (Rotation.fresh [0; 1; 2; 3; 4; 5; 6; 7]
         [Fin 1; Fin 2; Fin 1; Fin 2; Fin 1; Fin 2; Fin 1; Fin 2]
         [Fin 0; Fin 0; Fin 0; Fin 0; Fin 0; Fin 0; Fin 0; Fin 0] (Fin 1)) in
  snd run = Ok (2, PInf) /\
  Rotation.pdm_period (fst run) = Some 2 /\
  Rotation.period_err (fst run) = Some PInf.
Proof.
  cbv zeta.
  destruct (pdm_rotation_outcome (fun _ _ _ => None) [2; 2 # 3] 2
              (Rotation.fresh [0; 1; 2; 3; 4; 5; 6; 7]
                 [Fin 1; Fin 2; Fin 1; Fin 2; Fin 1; Fin 2; Fin 1; Fin 2]
                 [Fin 0; Fin 0; Fin 0; Fin 0; Fin 0; Fin 0; Fin 0; Fin 0]
                 (Fin 1)))
    as [_ [_ H]].
  assert (E : snd (Rotation.pdm_rotation (fun _ _ _ => None) [2; 2 # 3] 2
              (Rotation.fresh [0; 1; 2; 3; 4; 5; 6; 7]
                 [Fin 1; Fin 2; Fin 1; Fin 2; Fin 1; Fin 2; Fin 1; Fin 2]
                 [Fin 0; Fin 0; Fin 0; Fin 0; Fin 0; Fin 0; Fin 0; Fin 0]
                 (Fin 1))) = Ok (2, PInf)) by (vm_compute; reflexivity).
  destruct (H 2 PInf E) as [H1 [_ [H3 _]]].
  split; [exact E|]. split; [exact H1|exact H3].
Defined.

(** ** The Gaussian-process kernel *)

Module GPFacts.
Import Reals Lra String GP.
Local Open Scope R_scope.
Local Open Scope string_scope.

Lemma item_present (d : dict) (key : string) :
  (exists v, item d key = Built v) \/ item d key = KeyError key.
Proof.
  induction d as [|[k v] r IH]; simpl; [now right|].
  destruct (String.eqb k key); [left; now exists v|exact IH].
Qed.

Lemma quality_root (q : R) : 1 / 2 < q -> 0 < sqrt (4 * q ^ 2 - 1).
Proof.
  intro H. apply sqrt_lt_R0. nra.
Qed.

(** X11. [build_gp] returns a process exactly when [params] holds all nine
    keys it reads; otherwise it raises KeyError for a key it reads that is
    missing from [params]. *)
Theorem build_gp_keys (params : dict) (t yerr : list R) :
  (Forall (fun k => exists v, item params k = Built v) keys <->
   exists gp, build_gp params t yerr = Built gp) /\
  forall k, build_gp params t yerr = KeyError k ->
    In k keys /\ item params k = KeyError k.
Proof.
  unfold build_gp, keys.
  destruct (item_present params "log_sigma") as [[v1 E1]|E1]; rewrite E1; cbn [and_then].
  2:{ split; [split|].
      - intro F. inversion F as [|? ? [v H] _]. congruence.
      - intros [gp H]. discriminate.
      - intros k H. injection H as <-. split; [simpl; tauto|exact E1]. }
  destruct (item_present params "log_period") as [[v2 E2]|E2]; rewrite E2; cbn [and_then].
  2:{ split; [split|].
      - intro F. do 1 (apply Forall_inv_tail in F). inversion F as [|? ? [v H] _]. congruence.
      - intros [gp H]. discriminate.
      - intros k H. injection H as <-. split; [simpl; tauto|exact E2]. }
  destruct (item_present params "log_Q0") as [[v3 E3]|E3]; rewrite E3; cbn [and_then].
  2:{ split; [split|].
      - intro F. do 2 (apply Forall_inv_tail in F). inversion F as [|? ? [v H] _]. congruence.
      - intros [gp H]. discriminate.
      - intros k H. injection H as <-. split; [simpl; tauto|exact E3]. }
  destruct (item_present params "log_deltaQ") as [[v4 E4]|E4]; rewrite E4; cbn [and_then].
  2:{ split; [split|].
      - intro F. do 3 (apply Forall_inv_tail in F). inversion F as [|? ? [v H] _]. congruence.
      - intros [gp H]. discriminate.
      - intros k H. injection H as <-. split; [simpl; tauto|exact E4]. }
  destruct (item_present params "log_f") as [[v5 E5]|E5]; rewrite E5; cbn [and_then].
  2:{ split; [split|].
      - intro F. do 4 (apply Forall_inv_tail in F). inversion F as [|? ? [v H] _]. congruence.
      - intros [gp H]. discriminate.
      - intros k H. injection H as <-. split; [simpl; tauto|exact E5]. }
  cbv zeta.
  destruct (item_present params "log_Sw4") as [[v6 E6]|E6]; rewrite E6; cbn [and_then].
  2:{ split; [split|].
      - intro F. do 5 (apply Forall_inv_tail in F). inversion F as [|? ? [v H] _]. congruence.
      - intros [gp H]. discriminate.
      - intros k H. injection H as <-. split; [simpl; tauto|exact E6]. }
  destruct (item_present params "log_w0") as [[v7 E7]|E7]; rewrite E7; cbn [and_then].
  2:{ split; [split|].
      - intro F. do 6 (apply Forall_inv_tail in F). inversion F as [|? ? [v H] _]. congruence.
      - intros [gp H]. discriminate.
      - intros k H. injection H as <-. split; [simpl; tauto|exact E7]. }
  destruct (item_present params "log_jitter") as [[v8 E8]|E8]; rewrite E8; cbn [and_then].
  2:{ split; [split|].
      - intro F. do 7 (apply Forall_inv_tail in F). inversion F as [|? ? [v H] _]. congruence.
      - intros [gp H]. discriminate.
      - intros k H. injection H as <-. split; [simpl; tauto|exact E8]. }
  destruct (item_present params "mean") as [[v9 E9]|E9]; rewrite E9; cbn [and_then].
  2:{ split; [split|].
      - intro F. do 8 (apply Forall_inv_tail in F). inversion F as [|? ? [v H] _]. congruence.
      - intros [gp H]. discriminate.
      - intros k H. injection H as <-. split; [simpl; tauto|exact E9]. }
  split; [split|].
  - intros _. eexists. reflexivity.
  - intros _. repeat constructor; eexists; eassumption.
  - intros k H. discriminate.
Qed.


(** A built process, read back: the nine parameters were present and the
    process is the one computed from them. *)
Lemma build_gp_built (params : dict) (t yerr : list R)
  (gp : GaussianProcess) :
  build_gp params t yerr = Built gp ->
  exists ls lp lq ld lf lS lw lj m,
    item params "log_sigma" = Built ls /\
    item params "log_period" = Built lp /\
    item params "log_Q0" = Built lq /\
    item params "log_deltaQ" = Built ld /\
    item params "log_f" = Built lf /\
    item params "log_Sw4" = Built lS /\
    item params "log_w0" = Built lw /\
    item params "log_jitter" = Built lj /\
    item params "mean" = Built m /\
    let amp := exp ls ^ 2 / (1 + exp lf) in
    let Q1 := 1 / 2 + exp lq + exp ld in
    let w1 := 4 * PI * Q1 / (exp lp * sqrt (4 * Q1 ^ 2 - 1)) in
    let Q2 := 1 / 2 + exp lq in
    let w2 := 8 * PI * Q2 / (exp lp * sqrt (4 * Q2 ^ 2 - 1)) in
    gp = mkGaussianProcess
           [mkSHO (amp / (w1 * Q1)) w1 Q1;
            mkSHO (exp lf * amp / (w2 * Q2)) w2 Q2;
            mkSHO (exp lS / exp lw ^ 4) (exp lw) (1 / sqrt 2)]
           t (map (fun e => e ^ 2 + exp lj) yerr) m.
Proof.
  unfold build_gp.
  destruct (item params "log_sigma") as [ls|]; [|discriminate].
  destruct (item params "log_period") as [lp|]; [|discriminate].
  destruct (item params "log_Q0") as [lq|]; [|discriminate].
  destruct (item params "log_deltaQ") as [ld|]; [|discriminate].
  destruct (item params "log_f") as [lf|]; [|discriminate].
  cbn [and_then]. cbv zeta.
  destruct (item params "log_Sw4") as [lS|]; [|discriminate].
  destruct (item params "log_w0") as [lw|]; [|discriminate].
  destruct (item params "log_jitter") as [lj|]; [|discriminate].
  destruct (item params "mean") as [m|]; [|discriminate].
  cbn [and_then]. intro H. injection H as <-.
  exists ls, lp, lq, ld, lf, lS, lw, lj, m. repeat split.
Qed.

Lemma first_quality (lq ld : R) : 1 / 2 < 1 / 2 + exp lq + exp ld.
Proof. pose proof (exp_pos lq). pose proof (exp_pos ld). lra. Qed.

Lemma second_quality (lq : R) : 1 / 2 < 1 / 2 + exp lq.
Proof. pose proof (exp_pos lq). lra. Qed.

Lemma omega_pos (c q p : R) :
  0 < c -> 1 / 2 < q -> 0 < p ->
  0 < c * PI * q / (p * sqrt (4 * q ^ 2 - 1)).
Proof.
  intros Hc Hq Hp. pose proof PI_RGT_0 as Hpi.
  pose proof (quality_root q Hq) as Hs.
  apply Rdiv_lt_0_compat.
  - apply Rmult_lt_0_compat; [apply Rmult_lt_0_compat; assumption|lra].
  - apply Rmult_lt_0_compat; assumption.
Qed.


(** X13. In a process built by [build_gp] the first term oscillates with
    the period [exp log_period] and the second with half that period: their
    damped angular frequencies [omega * sqrt (1 - 1/(4 Q^2))] are
    [2 pi / period] and twice that. *)
Theorem build_gp_periods (params : dict) (t yerr : list R)
  (gp : GaussianProcess) (lp : R)
  (H : build_gp params t yerr = Built gp)
  (Hp : item params "log_period" = Built lp) :
  exists k1 k2 k3,
    kernel gp = [k1; k2; k3] /\
    sho_omega k1 * sqrt (1 - 1 / (4 * sho_quality k1 ^ 2)) =
      2 * PI / exp lp /\
    sho_omega k2 * sqrt (1 - 1 / (4 * sho_quality k2 ^ 2)) =
      2 * (2 * PI / exp lp).
Proof.
  destruct (build_gp_built params t yerr gp H)
    as (ls & lp' & lq & ld & lf & lS & lw & lj & m & _ & Ep & _ & _ & _ & _ &
        _ & _ & _ & E).
  rewrite Hp in Ep. injection Ep as <-.
  cbv zeta in E. subst gp. cbn [kernel].
  do 3 eexists. split; [reflexivity|]. cbn [sho_quality sho_omega].
  pose proof (exp_pos lp) as Plp.
  assert (D : forall q, 1 / 2 < q ->
            sqrt (1 - 1 / (4 * q ^ 2)) = sqrt (4 * q ^ 2 - 1) / (2 * q)).
  { intros q Hq.
    replace (1 - 1 / (4 * q ^ 2)) with ((4 * q ^ 2 - 1) / ((2 * q) ^ 2))
      by (field; lra).
    rewrite sqrt_div_alt by (apply pow_lt; lra).
    rewrite sqrt_pow2 by lra. reflexivity. }
  split.
  - pose proof (first_quality lq ld) as HQ.
    pose proof (quality_root _ HQ) as Hs.
    rewrite (D _ HQ). field. repeat split; lra.
  - pose proof (second_quality lq) as HQ.
    pose proof (quality_root _ HQ) as Hs.
    rewrite (D _ HQ). field. repeat split; lra.
Qed.

(** X14. In a process built by [build_gp] the two rotation terms share
    the variance [sigma^2 = exp (2 log_sigma)]: the products
    [sigma * omega * quality] of the two terms add up to [sigma^2], the
    second being [f = exp log_f] times the first. *)
Theorem build_gp_variance (params : dict) (t yerr : list R)
  (gp : GaussianProcess) (ls lf : R)
  (H : build_gp params t yerr = Built gp)
  (Hs : item params "log_sigma" = Built ls)
  (Hf : item params "log_f" = Built lf) :
  exists k1 k2 k3,
    kernel gp = [k1; k2; k3] /\
    sho_sigma k1 * sho_omega k1 * sho_quality k1 +
    sho_sigma k2 * sho_omega k2 * sho_quality k2 = exp ls ^ 2 /\
    sho_sigma k2 * sho_omega k2 * sho_quality k2 =
      exp lf * (sho_sigma k1 * sho_omega k1 * sho_quality k1).
Proof.
  destruct (build_gp_built params t yerr gp H)
    as (ls' & lp & lq & ld & lf' & lS & lw & lj & m & Es & _ & _ & _ & Ef &
        _ & _ & _ & _ & E).
  rewrite Hs in Es. injection Es as <-.
  rewrite Hf in Ef. injection Ef as <-.
  cbv zeta in E. subst gp. cbn [kernel].
  do 3 eexists. split; [reflexivity|]. cbn [sho_quality sho_omega sho_sigma].
  pose proof (exp_pos lp) as Plp. pose proof (exp_pos lf) as Plf.
  pose proof (first_quality lq ld) as HQ1.
  pose proof (second_quality lq) as HQ2.
  pose proof (omega_pos 4 _ _ ltac:(lra) HQ1 Plp) as Hw1.
  pose proof (omega_pos 8 _ _ ltac:(lra) HQ2 Plp) as Hw2.
  set (Q1 := 1 / 2 + exp lq + exp ld) in *.
  set (Q2 := 1 / 2 + exp lq) in *.
  set (w1 := 4 * PI * Q1 / (exp lp * sqrt (4 * Q1 ^ 2 - 1))) in *.
  set (w2 := 8 * PI * Q2 / (exp lp * sqrt (4 * Q2 ^ 2 - 1))) in *.
  split; field; repeat split; lra.
Qed.


(** All nine parameters 0, two observations. *)
Lemma build_gp_keys_witness :
  exists gp,
    build_gp
      [("log_sigma", 0); ("log_period", 0); ("log_Q0", 0);
       ("log_deltaQ", 0); ("log_f", 0); ("log_Sw4", 0); ("log_w0", 0);
       ("log_jitter", 0); ("mean", 0)] [0; 1] [1; 2] = Built gp.
Proof.
  apply (proj1 (build_gp_keys _ _ _)).
  repeat constructor; eexists; reflexivity.
Defined.


Lemma build_gp_periods_witness :
  exists gp k1 k2 k3,
    build_gp
      [("log_sigma", 0); ("log_period", 0); ("log_Q0", 0);
       ("log_deltaQ", 0); ("log_f", 0); ("log_Sw4", 0); ("log_w0", 0);
       ("log_jitter", 0); ("mean", 0)] [0; 1] [1; 2] = Built gp /\
    kernel gp = [k1; k2; k3] /\
    sho_omega k1 * sqrt (1 - 1 / (4 * sho_quality k1 ^ 2)) =
      2 * PI / exp 0.
Proof.
  eexists.
  destruct (build_gp_periods
              [("log_sigma", 0); ("log_period", 0); ("log_Q0", 0);
               ("log_deltaQ", 0); ("log_f", 0); ("log_Sw4", 0);
               ("log_w0", 0); ("log_jitter", 0); ("mean", 0)]
              [0; 1] [1; 2] _ 0 eq_refl eq_refl)
    as (k1 & k2 & k3 & Ek & H1 & _).
  exists k1, k2, k3. split; [reflexivity|]. split; [exact Ek|exact H1].
Defined.

Lemma build_gp_variance_witness :
  exists gp k1 k2 k3,
    build_gp
      [("log_sigma", 0); ("log_period", 0); ("log_Q0", 0);
       ("log_deltaQ", 0); ("log_f", 0); ("log_Sw4", 0); ("log_w0", 0);
       ("log_jitter", 0); ("mean", 0)] [0; 1] [1; 2] = Built gp /\
    kernel gp = [k1; k2; k3] /\
    sho_sigma k1 * sho_omega k1 * sho_quality k1 +
    sho_sigma k2 * sho_omega k2 * sho_quality k2 = exp 0 ^ 2.
Proof.
  eexists.
  destruct (build_gp_variance
              [("log_sigma", 0); ("log_period", 0); ("log_Q0", 0);
               ("log_deltaQ", 0); ("log_f", 0); ("log_Sw4", 0);
               ("log_w0", 0); ("log_jitter", 0); ("mean", 0)]
              [0; 1] [1; 2] _ 0 0 eq_refl eq_refl eq_refl)
    as (k1 & k2 & k3 & Ek & H1 & _).
  exists k1, k2, k3. split; [reflexivity|]. split; [exact Ek|exact H1].
Defined.

End GPFacts.
